(** * Social battery status: the periodic task and the sparkle animation

    A shallow embedding of [PeriodicTask] and [SparkleAnimation] from
    [code.py], with the properties the specification states about them.

    Modelling decisions, all visible in the definitions below:
    - Python [int] is [Z]; Python [float] is read in exact rational
      arithmetic ([Q]); [int(x)] on a float is truncation toward zero.
    - [time.monotonic_ns()] and [random.randint] are oracles: two streams
      [ticks] and [draws], read through cursors kept in the [World].
    - A Python [set] of integers is its insertion history (a duplicate-free
      list); the order in which a set is enumerated is an unknown but fixed
      function [set_iter] of that history.
    - The [while] loop of the animation is the only unbounded loop; it takes
      fuel, and running out of it is the result [OutOfFuel].
    - The world carries a [journal] of fires. It is ghost state: the program
      never reads it. *)

From Stdlib Require Import String.
From Stdlib Require Import ZArith QArith Qround List Lia Permutation Bool.
Import ListNotations.
Open Scope Z_scope.

(** ** Results and exceptions *)

Inductive exn : Type :=
| ZeroDivisionError
| OverflowError
| ValueError
| IndexError.

Inductive result (A : Type) : Type :=
| Ok (a : A)
| Raise (e : exn)
| OutOfFuel.

Arguments Ok {A} a.
Arguments Raise {A} e.
Arguments OutOfFuel {A}.

(** ** The world: clock cursor, random cursor, ghost journal *)

Record World : Type := mkWorld {
  reads : nat;               (* clock readings taken so far *)
  drawn : nat;               (* random draws taken so far *)
  journal : list (Z * Z)     (* ghost: (now, stamp) of each fire, newest first *)
}.

Definition M (A : Type) : Type := World -> result (A * World).

Definition ret {A} (a : A) : M A := fun w => Ok (a, w).

Definition bind {A B} (c : M A) (k : A -> M B) : M B :=
  fun w => match c w with
           | Ok (a, w') => k a w'
           | Raise e => Raise e
           | OutOfFuel => OutOfFuel
           end.

Definition raise {A} (e : exn) : M A := fun _ => Raise e.

Notation "x <- c ;; k" := (bind c (fun x => k))
  (at level 61, c at next level, right associativity).

(** [int(x)] for a float [x]: truncation toward zero. *)
Definition int_of_Q (q : Q) : Z := Z.quot (Qnum q) (Zpos (Qden q)).

(** ** Colours and the pixel strip *)

Inductive Color : Type :=
| PackedColor (c : Z)
| ComponentColor (t : list Z).

Definition BLACK : list Z := [0; 0; 0].
Definition RED : list Z := [255; 0; 0].
Definition YELLOW : list Z := [255; 170; 0].
Definition GREEN : list Z := [0; 180; 0].

(** What the strip was asked to do, in order (newest first). *)
Inductive StripOp : Type :=
| OpFill (c : list Z)
| OpSet (i : Z) (c : list Z)
| OpShow (frame : list (list Z)).

Record NeoPixel : Type := mkNeoPixel {
  pixels : list (list Z);
  oplog : list StripOp
}.

Fixpoint set_nth {A} (n : nat) (x : A) (l : list A) : list A :=
  match l, n with
  | [], _ => []
  | _ :: t, O => x :: t
  | h :: t, S k => h :: set_nth k x t
  end.

(** [strip.fill(c)] *)
Definition fill (c : list Z) (s : NeoPixel) : NeoPixel :=
  {| pixels := map (fun _ => c) (pixels s); oplog := OpFill c :: oplog s |}.

(** [strip[i] = c]; negative indices count from the end, others raise. *)
Definition setitem (i : Z) (c : list Z) (s : NeoPixel) : M NeoPixel :=
  let n := Z.of_nat (length (pixels s)) in
  if (0 <=? i) && (i <? n) then
    ret {| pixels := set_nth (Z.to_nat i) c (pixels s);
           oplog := OpSet i c :: oplog s |}
  else if (- n <=? i) && (i <? 0) then
    ret {| pixels := set_nth (Z.to_nat (i + n)) c (pixels s);
           oplog := OpSet i c :: oplog s |}
  else raise IndexError.

(** [strip.show()] *)
Definition show (s : NeoPixel) : NeoPixel :=
  {| pixels := pixels s; oplog := OpShow (pixels s) :: oplog s |}.

(** ** Objects *)

(** A [PeriodicTask] instance; [fields] holds what a subclass adds. *)
Record Obj (E : Type) : Type := mkObj {
  frequency : Q;
  _last_update_time : Z;
  fields : E
}.

Arguments mkObj {E}.
Arguments frequency {E}.
Arguments _last_update_time {E}.
Arguments fields {E}.

(** The overridable method [run]. *)
Class Action (E : Type) : Type := { run : Obj E -> M (Obj E) }.

Record SparkleFields : Type := mkSparkleFields {
  strip : NeoPixel;
  _offset : Z;
  color : Color
}.

(** [color.to_bytes(3, "big")] *)
Definition to_bytes3 (c : Z) : M (list Z) :=
  if (0 <=? c) && (c <? 16777216) then
    ret [Z.land (Z.shiftr c 16) 255; Z.land (Z.shiftr c 8) 255; Z.land c 255]
  else raise OverflowError.

Definition normalize (c : Color) : M (list Z) :=
  match c with
  | PackedColor n => to_bytes3 n
  | ComponentColor t => ret t
  end.

Fixpoint tuple_eqb (a b : list Z) : bool :=
  match a, b with
  | [], [] => true
  | x :: a', y :: b' => (x =? y) && tuple_eqb a' b'
  | _, _ => false
  end.

(** [positions.add(x)] on the insertion history of a set. *)
Definition set_add (x : Z) (s : list Z) : list Z :=
  if existsb (Z.eqb x) s then s else s ++ [x].

Fixpoint enumerate_from {A} (i : nat) (l : list A) : list (nat * A) :=
  match l with
  | [] => []
  | x :: t => (i, x) :: enumerate_from (S i) t
  end.

Definition enumerate {A} (l : list A) : list (nat * A) := enumerate_from 0 l.

(** [tuple(int(color_value * m) for color_value in color)] *)
Definition sparkle_color (color : list Z) (m : Q) : list Z :=
  map (fun color_value => int_of_Q (inject_Z color_value * m)) color.

(** ** Buttons, labels and the screen *)

Inductive ButtonStyle : Type := SHADOWROUNDRECT.

(** A [Button], as the arguments it was constructed with. *)
Module Button.
Record t : Type := mk {
  x : Z;
  y : Z;
  width : Z;
  height : Z;
  style : ButtonStyle;
  fill_color : Color;
  outline_color : Z;
  name : string;
  label : string;
  label_font : string;
  label_color : Z
}.
End Button.

Definition GREEN_LABEL : string := "full"%string.
Definition YELLOW_LABEL : string := "low"%string.
Definition RED_LABEL : string := "empty"%string.

(** A dict with string keys, as its items in the order they were written. *)
Definition color_labels : list (string * list Z) :=
  [(RED_LABEL, RED); (YELLOW_LABEL, YELLOW); (GREEN_LABEL, GREEN)].

Definition status_backgrounds : list (string * string) :=
  [(GREEN_LABEL, "images/full.bmp"%string);
   (YELLOW_LABEL, "images/low.bmp"%string);
   (RED_LABEL, "images/empty.bmp"%string)].

(** [d[k]], and [k in d] as its being [Some]. *)
Fixpoint dict_get {V} (k : string) (d : list (string * V)) : option V :=
  match d with
  | [] => None
  | (k', v) :: rest => if String.eqb k k' then Some v else dict_get k rest
  end.

Definition arial_font : string := "/fonts/LeagueSpartan-Bold-16.bdf"%string.

Definition background_color : Z := 0.

(** What [pyportal.set_background] was last given. *)
Inductive Background : Type :=
| BgColor (c : Z)
| BgImage (path : string).

(** The [hidden] flags this program writes, and the background. *)
Record Screen : Type := mkScreen {
  back_button_group_hidden : bool;
  button_group_hidden : bool;
  social_status_label_hidden : bool;
  background : Background
}.

(** The mutable globals of the main loop: the screen and [pixel_pattern]. *)
Record App : Type := mkApp {
  screen : Screen;
  pattern : Obj SparkleFields
}.

(** [create_back_button]'s button. *)
Definition back_button : Button.t :=
  {| Button.x := 10; Button.y := 200; Button.width := 80; Button.height := 40;
     Button.style := SHADOWROUNDRECT;
     Button.fill_color := ComponentColor [0; 0; 0];
     Button.outline_color := 2236962;
     Button.name := "back"%string; Button.label := "back"%string;
     Button.label_font := arial_font; Button.label_color := 16777215 |}.

(** The [for text_label, color in ...] loop of [create_buttons]. *)
Fixpoint create_buttons_loop (items : list (string * list Z))
         (width height x y : Z) (buttons : list Button.t) : list Button.t :=
  match items with
  | [] => buttons
  | (text_label, color) :: rest =>
      let button :=
        {| Button.x := x; Button.y := y;
           Button.width := width; Button.height := height;
           Button.style := SHADOWROUNDRECT;
           Button.fill_color := ComponentColor color;
           Button.outline_color := 2236962;
           Button.name := text_label; Button.label := text_label;
           Button.label_font := arial_font; Button.label_color := 16777215 |} in
      create_buttons_loop rest width height x (y + 40) (buttons ++ [button])
  end.

(** The screen once [init] has run: menu shown, back button hidden. *)
Definition initial_screen : Screen :=
  {| back_button_group_hidden := true;
     button_group_hidden := false;
     social_status_label_hidden := false;
     background := BgColor background_color |}.

(** Menu and back button are never shown together, and the title goes with
    the menu. *)
Definition screen_consistent (s : Screen) : Prop :=
  social_status_label_hidden s = button_group_hidden s /\
  back_button_group_hidden s = negb (button_group_hidden s).

(** ** A concrete device

    A clock read every 50 ms, a fixed sequence of raw draws, sets enumerated
    in insertion order, a task at 12 fires per second and a strip of 24
    pixels, as in [code.py]. *)

Definition stub_ticks (n : nat) : Z := Z.of_nat n * 50000000.

Definition stub_draws (n : nat) : Z := Z.of_nat n * 37 + 11.

Definition insertion_order (s : list Z) : list Z := s.

Definition world_at (r : nat) : World :=
  {| reads := r; drawn := 0; journal := [] |}.


Definition dark_strip : NeoPixel :=
  {| pixels := repeat BLACK 24; oplog := [] |}.

Definition pixel_pattern (c : Color) : Obj SparkleFields :=
  {| frequency := 12; _last_update_time := 0;
     fields := {| strip := dark_strip; _offset := 0; color := c |} |}.

(** Another task on another strip of the same length, in another world. *)
Definition used_strip : NeoPixel :=
  {| pixels := repeat GREEN 24; oplog := [OpShow (repeat GREEN 24)] |}.

Definition other_pattern (c : Color) : Obj SparkleFields :=
  {| frequency := 30; _last_update_time := 77;
     fields := {| strip := used_strip; _offset := 5; color := c |} |}.

Definition later_world : World :=
  {| reads := 9; drawn := 0; journal := [(3, 4)] |}.

(** Tasks with a zero and with a negative frequency, a strip of one pixel,
    the dict read in the order it is written, a hit test on the rectangle of
    a button, and the fill colour read back as it was given. *)
Definition task0 : Obj unit :=
  {| frequency := 0; _last_update_time := 0; fields := tt |}.

Definition task_backwards : Obj unit :=
  {| frequency := - (5); _last_update_time := 0; fields := tt |}.

Definition one_pixel (c : Color) : Obj SparkleFields :=
  {| frequency := 12; _last_update_time := 0;
     fields := {| strip := {| pixels := [BLACK]; oplog := [] |};
                  _offset := 0; color := c |} |}.

Definition source_order (d : list (string * list Z)) : list (string * list Z) := d.

Definition inside (b : Button.t) (p : Z * Z * Z) : bool :=
  let '(px, py, _) := p in
  (Button.x b <=? px) && (px <=? Button.x b + Button.width b) &&
  (Button.y b <=? py) && (py <=? Button.y b + Button.height b).

Definition as_given (b : Button.t) : Color := Button.fill_color b.

Definition menu (c : Color) : App :=
  {| screen := initial_screen; pattern := pixel_pattern c |}.

Section Program.

Set Default Proof Using "Type".

(** Successive readings of [time.monotonic_ns()]. *)
Variable ticks : nat -> Z.
(** The raw stream behind [random.randint]. *)
Variable draws : nat -> Z.
(** The order in which a set with a given insertion history is enumerated. *)
Variable set_iter : list Z -> list Z.
(** The order in which [color_labels.items()] yields the items of the dict. *)
Variable dict_iter : list (string * list Z) -> list (string * list Z).
(** [button.contains(touch)], of the button library. *)
Variable Button_contains : Button.t -> Z * Z * Z -> bool.
(** What the attribute [button.fill_color] reads, of the button library. *)
Variable Button_fill_color : Button.t -> Color.

Definition monotonic_ns : M Z :=
  fun w => Ok (ticks (reads w),
               {| reads := S (reads w); drawn := drawn w; journal := journal w |}).

(** [random.randint(a, b)]: some integer of [a..b], the next draw deciding
    which; an empty range raises. *)
Definition randint (a b : Z) : M Z :=
  fun w => if b <? a then Raise ValueError
           else Ok (a + draws (drawn w) mod (b - a + 1),
                    {| reads := reads w; drawn := S (drawn w); journal := journal w |}).

(** Ghost: note that the action ran, triggered at [now], stamped at [t]. *)
Definition record_fire (now t : Z) : M unit :=
  fun w => Ok (tt, {| reads := reads w; drawn := drawn w;
                      journal := (now, t) :: journal w |}).

(** *** PeriodicTask *)

Definition PeriodicTask_init (freq : Q) : M (Obj unit) :=
  ret {| frequency := freq; _last_update_time := 0; fields := tt |}.

(** [int(1.0 / self.frequency * 1000000000)] *)
Definition period_ns (freq : Q) : M Z :=
  if Qeq_bool freq 0 then raise ZeroDivisionError
  else ret (int_of_Q (1 / freq * 1000000000)).

Definition update {E} `{Action E} (self : Obj E) : M (Obj E) :=
  now <- monotonic_ns ;;
  period <- period_ns (frequency self) ;;
  let next_update_time := _last_update_time self + period in
  if now >? next_update_time then
    self <- run self ;;
    t <- monotonic_ns ;;
    _ <- record_fire now t ;;
    ret {| frequency := frequency self; _last_update_time := t;
           fields := fields self |}
  else ret self.

(** [PeriodicTask.run]: [pass]. *)
#[export] Instance PeriodicTask_run : Action unit := {| run := fun self => ret self |}.

(** *** SparkleAnimation *)

Definition SparkleAnimation_init (freq : Q) (strip0 : NeoPixel)
  : M (Obj SparkleFields) :=
  super <- PeriodicTask_init freq ;;
  ret {| frequency := frequency super;
         _last_update_time := _last_update_time super;
         fields := {| strip := strip0; _offset := 0; color := PackedColor 0 |} |}.

(** [while len(positions) < num_sparkles: positions.add(randint(0, n - 1))] *)
Fixpoint sample_positions (fuel : nat) (num_sparkles num_pixels : Z)
         (positions : list Z) : M (list Z) :=
  if Z.of_nat (length positions) <? num_sparkles then
    match fuel with
    | O => fun _ => OutOfFuel
    | S fuel' =>
        x <- randint 0 (num_pixels - 1) ;;
        sample_positions fuel' num_sparkles num_pixels (set_add x positions)
    end
  else ret positions.

(** [[random.randint(0, 90) / 100 for i in range(n)]] *)
Fixpoint draw_multipliers (n : nat) : M (list Q) :=
  match n with
  | O => ret []
  | S n' =>
      k <- randint 0 90 ;;
      rest <- draw_multipliers n' ;;
      ret ((inject_Z k / 100)%Q :: rest)
  end.

Definition getitem (l : list Q) (i : nat) : M Q :=
  match nth_error l i with
  | Some m => ret m
  | None => raise IndexError
  end.

(** The [for index, strip_position in enumerate(positions)] loop. *)
Fixpoint paint (color : list Z) (color_multipliers : list Q)
         (todo : list (nat * Z)) (strip : NeoPixel) : M NeoPixel :=
  match todo with
  | [] => ret strip
  | (index, strip_position) :: rest =>
      m <- getitem color_multipliers index ;;
      strip <- setitem strip_position (sparkle_color color m) strip ;;
      paint color color_multipliers rest strip
  end.

Definition SparkleAnimation_run (fuel : nat) (self : Obj SparkleFields)
  : M (Obj SparkleFields) :=
  let num_pixels := Z.of_nat (length (pixels (strip (fields self)))) in
  rgb <- normalize (color (fields self)) ;;
  let base_color := map (fun color_value => color_value / 3) rgb in
  let filled := fill base_color (strip (fields self)) in
  p <- randint 25 75 ;;
  let num_sparkles := int_of_Q (inject_Z p / 100 * inject_Z num_pixels) in
  painted <- (if negb (tuple_eqb rgb BLACK) then
                positions <- sample_positions fuel num_sparkles num_pixels [] ;;
                color_multipliers <- draw_multipliers (Z.to_nat num_sparkles) ;;
                paint rgb color_multipliers (enumerate (set_iter positions)) filled
              else ret filled) ;;
  ret {| frequency := frequency self;
         _last_update_time := _last_update_time self;
         fields := {| strip := show painted;
                      _offset := _offset (fields self);
                      color := color (fields self) |} |}.

#[export] Instance SparkleAnimation_action (fuel : nat) : Action SparkleFields :=
  {| run := SparkleAnimation_run fuel |}.


(** *** The driver loop *)

(** One turn of [while True]: the touch handling may change the fields of the
    task (it assigns [color]), then [update] is called. *)
Fixpoint main_loop {E} `{Action E} (turns : list (E -> E)) (self : Obj E)
  : M (Obj E) :=
  match turns with
  | [] => ret self
  | touch :: rest =>
      self <- update {| frequency := frequency self;
                        _last_update_time := _last_update_time self;
                        fields := touch (fields self) |} ;;
      main_loop rest self
  end.

(** The world after one more clock reading. *)
Definition ticked (w : World) : World :=
  {| reads := S (reads w); drawn := drawn w; journal := journal w |}.

(** What a well-behaved action leaves alone: the frequency of its task, the
    ghost journal, and the past of the clock. *)
Class ActionFrame (E : Type) `{Action E} : Prop := {
  run_frequency : forall o w o' w',
    run o w = Ok (o', w') -> frequency o' = frequency o;
  run_journal : forall o w o' w',
    run o w = Ok (o', w') -> journal w' = journal w;
  run_reads : forall o w o' w',
    run o w = Ok (o', w') -> (reads w <= reads w')%nat
}.


Definition monotone (f : nat -> Z) : Prop :=
  forall i j, (i <= j)%nat -> f i <= f j.


(** An in-range indexed write, as a pure function on the strip. *)
Definition write (s : NeoPixel) (pc : Z * list Z) : NeoPixel :=
  {| pixels := set_nth (Z.to_nat (fst pc)) (snd pc) (pixels s);
     oplog := OpSet (fst pc) (snd pc) :: oplog s |}.

(** The pixel indices written since the last fill (log is newest first). *)
Fixpoint written_since_fill (log : list StripOp) : list Z :=
  match log with
  | [] => []
  | OpFill _ :: _ => []
  | OpSet i _ :: rest => i :: written_since_fill rest
  | OpShow _ :: rest => written_since_fill rest
  end.

(** How many frames were flushed. *)
Fixpoint shows (log : list StripOp) : nat :=
  match log with
  | [] => O
  | OpShow _ :: rest => S (shows rest)
  | _ :: rest => shows rest
  end.

(** The next [n] raw draws from stream position [from]. *)
Definition window (from n : nat) : list Z := map draws (seq from n).

(** The world after [n] more random draws. *)
Definition drew (n : nat) (w : World) : World :=
  {| reads := reads w; drawn := (drawn w + n)%nat; journal := journal w |}.

(** A pixel index of a strip of [n] pixels. *)
Definition in_strip (n : Z) (i : Z) : Prop := 0 <= i < n.

(** The multiplier a raw draw stands for: [randint(0, 90) / 100]. *)
Definition percent (r : Z) : Q := (inject_Z (r mod 91) / 100)%Q.

(** A position and its multiplier, as the write it causes. *)
Definition sparkle (rgb : list Z) (pm : Z * Q) : Z * list Z :=
  (fst pm, sparkle_color rgb (snd pm)).

(** The strip a pass leaves, given the normalized colour and what was painted. *)
Definition pass_result (self : Obj SparkleFields) (painted : NeoPixel)
  : Obj SparkleFields :=
  {| frequency := frequency self;
     _last_update_time := _last_update_time self;
     fields := {| strip := show painted;
                  _offset := _offset (fields self);
                  color := color (fields self) |} |}.



(** *** Buttons and the touch handling of the main loop *)

Definition create_buttons (width height offset : Z) : list Button.t :=
  let x := offset in
  let y := offset + int_of_Q (inject_Z height * (3 # 2)) in
  create_buttons_loop (dict_iter color_labels) width height x y [].

(** The global [buttons] once [init] has run. *)
Definition buttons : list Button.t := create_buttons 320 40 10 ++ [back_button].

(** The body of [if button.contains(touch):], up to the [break]. *)
Definition press (button : Button.t) (app : App) : App :=
  let app :=
    if String.eqb (Button.name button) "back" then
      {| screen := {| back_button_group_hidden := true;
                      button_group_hidden := false;
                      social_status_label_hidden := false;
                      background := BgColor background_color |};
         pattern := pattern app |}
    else app in
  match dict_get (Button.name button) status_backgrounds with
  | Some image =>
      {| screen := {| back_button_group_hidden := false;
                      button_group_hidden := true;
                      social_status_label_hidden := true;
                      background := BgImage image |};
         pattern :=
           {| frequency := frequency (pattern app);
              _last_update_time := _last_update_time (pattern app);
              fields := {| strip := strip (fields (pattern app));
                           _offset := _offset (fields (pattern app));
                           color := Button_fill_color button |} |} |}
  | None => app
  end.

(** [for button in buttons: if button.contains(touch): ...; break] *)
Fixpoint on_touch (bs : list Button.t) (touch : Z * Z * Z) (app : App) : App :=
  match bs with
  | [] => app
  | button :: rest =>
      if Button_contains button touch then press button app
      else on_touch rest touch app
  end.

(** [if touch: ...], [touch] being [None] or a point. *)
Definition handle_touch (bs : list Button.t) (touch : option (Z * Z * Z))
           (app : App) : App :=
  match touch with
  | Some point => on_touch bs point app
  | None => app
  end.

(** Turns of [while True], one per reading of the touch screen. *)
Fixpoint app_loop (fuel : nat) (bs : list Button.t)
         (touches : list (option (Z * Z * Z))) (app : App) : M App :=
  match touches with
  | [] => ret app
  | touch :: rest =>
      let app := handle_touch bs touch app in
      p <- @update _ (SparkleAnimation_action fuel) (pattern app) ;;
      app_loop fuel bs rest {| screen := screen app; pattern := p |}
  end.

(** Start-up: the strip, [pixel_pattern] on it, and [init]'s fill of the
    strip, which is the animation's own strip object. *)
Definition boot (strip0 : NeoPixel) : M App :=
  pixel_pattern <- SparkleAnimation_init 12 strip0 ;;
  ret {| screen := initial_screen;
         pattern :=
           {| frequency := frequency pixel_pattern;
              _last_update_time := _last_update_time pixel_pattern;
              fields := {| strip := fill BLACK (strip (fields pixel_pattern));
                           _offset := _offset (fields pixel_pattern);
                           color := color (fields pixel_pattern) |} |} |}.

(** The colours the animation can have been given: the constructor's 0, or
    what [fill_color] reads on one of the status buttons. *)
Definition status_colour (c : Color) : Prop :=
  c = PackedColor 0 \/
  exists b, In b (create_buttons 320 40 10) /\ c = Button_fill_color b.

(** The dict yields every item once. *)
Hypothesis dict_iter_perm :
  forall d : list (string * list Z), Permutation (dict_iter d) d.

(** A set is enumerated in some order: every element once. *)
Hypothesis set_iter_perm : forall s : list Z, Permutation (set_iter s) s.

(** ** Properties of PeriodicTask *)

Lemma int_of_Q_floor (q : Q) : (0 <= q)%Q -> int_of_Q q = Qfloor q.
Proof.
  destruct q as [n d]. unfold Qle, int_of_Q, Qfloor. simpl. intros Hn.
  apply Z.quot_div_nonneg; lia.
Qed.



Lemma period_ns_nonzero (f : Q) (w : World) :
  ~ (f == 0)%Q -> period_ns f w = Ok (int_of_Q (1 / f * 1000000000), w).
Proof.
  intros Hf. unfold period_ns.
  destruct (Qeq_bool f 0) eqn:E; [| reflexivity].
  apply Qeq_bool_iff in E. contradiction.
Qed.

Lemma period_ns_zero (f : Q) (w : World) :
  (f == 0)%Q -> period_ns f w = Raise ZeroDivisionError.
Proof.
  intros Hf. unfold period_ns. apply Qeq_bool_iff in Hf. now rewrite Hf.
Qed.


(** [update], branch by branch. *)
Lemma update_unfold {E} `{Action E} (self : Obj E) (w : World) :
  ~ (frequency self == 0)%Q ->
  update self w =
    if ticks (reads w) >?
       _last_update_time self + int_of_Q (1 / frequency self * 1000000000)
    then
      match run self (ticked w) with
      | Ok (o, w1) =>
          Ok ({| frequency := frequency o;
                 _last_update_time := ticks (reads w1);
                 fields := fields o |},
              {| reads := S (reads w1); drawn := drawn w1;
                 journal := (ticks (reads w), ticks (reads w1)) :: journal w1 |})
      | Raise e => Raise e
      | OutOfFuel => OutOfFuel
      end
    else Ok (self, ticked w).
Proof.
  intros Hf. unfold update, bind at 1. unfold monotonic_ns at 1.
  unfold bind at 1. fold (ticked w). rewrite (period_ns_nonzero _ _ Hf).
  destruct (_ >? _); [| reflexivity].
  unfold bind, ret. destruct (run self (ticked w)) as [[o w1] | e |]; reflexivity.
Qed.




#[export] Instance PeriodicTask_frame : ActionFrame unit.
Proof.
  split; intros o w o' w' Hrun; injection Hrun as <- <-; auto.
Qed.




(** C9, as the code has it. Constructing a [PeriodicTask] never fails: for
    every frequency, positive or not, the constructor returns a task with
    that frequency and [_last_update_time] 0. *)
Theorem PeriodicTask_init_always_succeeds (freq : Q) (w : World) :
  PeriodicTask_init freq w =
    Ok ({| frequency := freq; _last_update_time := 0; fields := tt |}, w).
Proof. reflexivity. Qed.

(** C9 as stated fails: a frequency of zero, and a negative one, are both
    accepted by the constructor. *)
Lemma PeriodicTask_init_accepts_nonpositive :
  ~ (forall (freq : Q) (w : World),
        (freq <= 0)%Q -> exists e, PeriodicTask_init freq w = Raise e).
Proof.
  intros Hall.
  destruct (Hall 0%Q {| reads := 0; drawn := 0; journal := [] |}) as [e He].
  - discriminate.
  - discriminate He.
Qed.

(** ** Properties of SparkleAnimation *)

(** *** Lists used as arrays and as sets *)

Lemma set_nth_length {A} (n : nat) (x : A) (l : list A) :
  length (set_nth n x l) = length l.
Proof.
  revert n. induction l as [| h t IH]; intros [| n]; simpl; auto.
Qed.


Lemma set_nth_other {A} (n m : nat) (x : A) (l : list A) :
  n <> m -> nth_error (set_nth n x l) m = nth_error l m.
Proof.
  revert n m.
  induction l as [| h t IH]; intros [| n] [| m] Hnm; simpl; auto; try congruence.
Qed.

Lemma existsb_eqb_In (x : Z) (s : list Z) :
  existsb (Z.eqb x) s = true <-> In x s.
Proof.
  rewrite existsb_exists. split.
  - intros (y & Hy & Hxy). apply Z.eqb_eq in Hxy. now subst.
  - intros Hx. exists x. split; [exact Hx | apply Z.eqb_refl].
Qed.

Lemma set_add_In (x y : Z) (s : list Z) :
  In y (set_add x s) <-> y = x \/ In y s.
Proof.
  unfold set_add. destruct (existsb (Z.eqb x) s) eqn:E.
  - apply existsb_eqb_In in E. split; [auto |]. intros [-> | H]; auto.
  - rewrite in_app_iff. simpl. split.
    + intros [H | [H | []]]; auto.
    + intros [H | H]; auto.
Qed.

Lemma set_add_NoDup (x : Z) (s : list Z) : NoDup s -> NoDup (set_add x s).
Proof.
  intros Hs. unfold set_add. destruct (existsb (Z.eqb x) s) eqn:E; [exact Hs |].
  assert (Hx : ~ In x s).
  { intros Hin. apply existsb_eqb_In in Hin. congruence. }
  apply NoDup_rev in Hs. rewrite <- (rev_involutive (s ++ [x])).
  apply NoDup_rev. rewrite rev_app_distr. simpl. constructor; [| exact Hs].
  now rewrite <- in_rev.
Qed.

Lemma set_add_length (x : Z) (s : list Z) :
  (length s <= length (set_add x s) <= S (length s))%nat.
Proof.
  unfold set_add. destruct (existsb (Z.eqb x) s); [lia |].
  rewrite length_app. simpl. lia.
Qed.

(** *** The random source *)

Lemma randint_ok (a b : Z) (w : World) :
  a <= b ->
  randint a b w = Ok (a + draws (drawn w) mod (b - a + 1), drew 1 w).
Proof.
  intros Hab. unfold randint. replace (b <? a) with false by (symmetry; lia).
  unfold drew. now rewrite Nat.add_1_r.
Qed.

Lemma randint_range (a b : Z) (w w' : World) (x : Z) :
  randint a b w = Ok (x, w') -> a <= x <= b /\ w' = drew 1 w.
Proof.
  unfold randint. destruct (b <? a) eqn:E; [discriminate |].
  intros Hx. injection Hx as <- <-.
  assert (Hm : 0 <= draws (drawn w) mod (b - a + 1) < b - a + 1)
    by (apply Z.mod_pos_bound; lia).
  split; [lia |]. unfold drew. now rewrite Nat.add_1_r.
Qed.

Lemma drew_drew (n m : nat) (w : World) : drew m (drew n w) = drew (n + m) w.
Proof. unfold drew. simpl. now rewrite Nat.add_assoc. Qed.

(** *** Sampling positions *)

Lemma sample_positions_inv (k n : Z) (fuel : nat) :
  forall (s r : list Z) (w w' : World),
    sample_positions fuel k n s w = Ok (r, w') ->
    NoDup s -> Forall (in_strip n) s -> Z.of_nat (length s) <= k ->
    NoDup r /\ Forall (in_strip n) r /\ Z.of_nat (length r) = k /\
    exists d, w' = drew d w.
Proof.
  induction fuel as [| fuel IH]; intros s r w w' Hrun Hnd Hin Hlen; simpl in Hrun.
  - destruct (_ <? _) eqn:E; [discriminate |]. injection Hrun as <- <-.
    repeat split; auto; [lia |]. exists O. unfold drew. destruct w; simpl.
    now rewrite Nat.add_0_r.
  - destruct (_ <? _) eqn:E.
    + unfold bind in Hrun.
      destruct (randint 0 (n - 1) w) as [[x w1] | e |] eqn:Hr; try discriminate.
      apply randint_range in Hr. destruct Hr as (Hx & ->).
      pose proof (set_add_length x s) as Hl.
      apply IH in Hrun.
      * destruct Hrun as (H1 & H2 & H3 & d & ->). repeat split; auto.
        exists (1 + d)%nat. apply drew_drew.
      * now apply set_add_NoDup.
      * apply Forall_forall. intros y Hy. apply set_add_In in Hy.
        destruct Hy as [-> | Hy]; [unfold in_strip; lia |].
        rewrite Forall_forall in Hin. auto.
      * lia.
    + injection Hrun as <- <-. repeat split; auto; [lia |].
      exists O. unfold drew. destruct w; simpl. now rewrite Nat.add_0_r.
Qed.

(** *** Float expressions, in exact arithmetic *)

Lemma percent_of_quot (p n : Z) :
  int_of_Q (inject_Z p / 100 * inject_Z n) = Z.quot (p * n) 100.
Proof.
  unfold int_of_Q, Qdiv, Qmult, Qinv, inject_Z. cbn [Qnum Qden].
  rewrite Z.mul_1_r. reflexivity.
Qed.

Lemma scaled_quot (v k : Z) :
  int_of_Q (inject_Z v * (inject_Z k / 100)) = Z.quot (v * k) 100.
Proof.
  unfold int_of_Q, Qdiv, Qmult, Qinv, inject_Z. cbn [Qnum Qden].
  rewrite Z.mul_1_r. reflexivity.
Qed.

Lemma percent_of_floor (p n : Z) :
  0 <= p -> 0 <= n ->
  int_of_Q (inject_Z p / 100 * inject_Z n) = p * n / 100 /\
  int_of_Q (inject_Z p / 100 * inject_Z n) = Qfloor (inject_Z p / 100 * inject_Z n).
Proof.
  intros Hp Hn. split.
  - rewrite percent_of_quot. apply Z.quot_div_nonneg; nia.
  - apply int_of_Q_floor. unfold Qle, Qdiv, Qmult, Qinv, inject_Z.
    cbn [Qnum Qden]. nia.
Qed.

(** *** Multipliers *)

Lemma draw_multipliers_ok (n : nat) :
  forall w : World,
    draw_multipliers n w = Ok (map percent (window (drawn w) n), drew n w).
Proof.
  induction n as [| n IH]; intros w.
  - simpl. unfold ret, drew. destruct w; simpl. now rewrite Nat.add_0_r.
  - simpl. unfold bind. rewrite randint_ok by lia. rewrite IH.
    unfold ret, window. simpl. rewrite Nat.add_1_r.
    f_equal. f_equal. unfold drew. simpl. f_equal. lia.
Qed.

(** *** Painting *)

Lemma skipn_nth_error {A} (l : list A) :
  forall i, (i < length l)%nat ->
    exists m, nth_error l i = Some m /\ skipn i l = m :: skipn (S i) l.
Proof.
  induction l as [| h t IH]; intros [| i] Hi; simpl in *; try lia.
  - exists h. auto.
  - destruct (IH i) as (m & H1 & H2); [lia |]. exists m. split; [exact H1 |].
    rewrite H2. reflexivity.
Qed.

Lemma setitem_in_range (i : Z) (c : list Z) (s : NeoPixel) (w : World) :
  in_strip (Z.of_nat (length (pixels s))) i ->
  setitem i c s w = Ok (write s (i, c), w).
Proof.
  unfold in_strip, setitem. intros Hi.
  replace ((0 <=? i) && (i <? _)) with true by (symmetry; apply andb_true_iff; lia).
  reflexivity.
Qed.

Lemma write_length (s : NeoPixel) (pc : Z * list Z) :
  length (pixels (write s pc)) = length (pixels s).
Proof. apply set_nth_length. Qed.

Lemma paint_enumerate (rgb : list Z) (mults : list Q) (l : list Z) :
  forall (i : nat) (s : NeoPixel) (w : World),
    (i + length l <= length mults)%nat ->
    Forall (in_strip (Z.of_nat (length (pixels s)))) l ->
    paint rgb mults (enumerate_from i l) s w =
      Ok (fold_left write (map (sparkle rgb) (combine l (skipn i mults))) s, w).
Proof.
  induction l as [| x t IH]; intros i s w Hlen Hin; simpl.
  - reflexivity.
  - simpl in Hlen. destruct (skipn_nth_error mults i) as (m & Hm & Hs); [lia |].
    inversion Hin as [| ? ? Hx Ht]; subst.
    unfold bind, getitem. rewrite Hm. unfold ret at 1.
    rewrite setitem_in_range by exact Hx.
    rewrite IH; [| lia | now rewrite write_length].
    rewrite Hs. reflexivity.
Qed.

Lemma fold_write_oplog (l : list (Z * list Z)) :
  forall s : NeoPixel,
    oplog (fold_left write l s) =
      rev (map (fun pc => OpSet (fst pc) (snd pc)) l) ++ oplog s.
Proof.
  induction l as [| pc t IH]; intros s; simpl; [reflexivity |].
  rewrite IH. simpl. now rewrite <- app_assoc.
Qed.

Lemma fold_write_length (l : list (Z * list Z)) :
  forall s : NeoPixel,
    length (pixels (fold_left write l s)) = length (pixels s).
Proof.
  induction l as [| pc t IH]; intros s; simpl; [reflexivity |].
  rewrite IH. apply write_length.
Qed.

(** A pixel nobody wrote keeps its value. *)
Lemma fold_write_untouched (l : list (Z * list Z)) (i : nat) :
  forall s : NeoPixel,
    Forall (fun pc => in_strip (Z.of_nat (length (pixels s))) (fst pc)) l ->
    ~ In (Z.of_nat i) (map fst l) ->
    nth_error (pixels (fold_left write l s)) i = nth_error (pixels s) i.
Proof.
  induction l as [| pc t IH]; intros s Hin Hni; simpl; [reflexivity |].
  inversion Hin as [| ? ? Hx Ht]; subst. simpl in Hni.
  rewrite IH.
  - simpl. apply set_nth_other. intros E. apply Hni. left.
    unfold in_strip in Hx. lia.
  - now rewrite write_length.
  - intros H. apply Hni. now right.
Qed.


(** *** One render pass, taken apart *)

Lemma normalize_pure (c : Color) (rgb : list Z) (w w' : World) :
  normalize c w = Ok (rgb, w') -> w' = w.
Proof.
  destruct c as [n | t]; simpl.
  - unfold to_bytes3. destruct (_ && _); [| discriminate].
    intros Hn. now injection Hn as _ <-.
  - intros Hn. now injection Hn as _ <-.
Qed.

Lemma SparkleAnimation_run_inv (fuel : nat) (self self' : Obj SparkleFields)
      (w w' : World) :
  SparkleAnimation_run fuel self w = Ok (self', w') ->
  exists rgb painted,
    normalize (color (fields self)) w = Ok (rgb, w) /\
    self' = pass_result self painted /\
    let n := Z.of_nat (length (pixels (strip (fields self)))) in
    let p := 25 + draws (drawn w) mod 51 in
    let num_sparkles := int_of_Q (inject_Z p / 100 * inject_Z n) in
    let filled := fill (map (fun v => v / 3) rgb) (strip (fields self)) in
    (tuple_eqb rgb BLACK = true /\ painted = filled /\ w' = drew 1 w) \/
    (tuple_eqb rgb BLACK = false /\
     exists positions d,
       sample_positions fuel num_sparkles n [] (drew 1 w)
         = Ok (positions, drew (1 + d) w) /\
       NoDup positions /\ Forall (in_strip n) positions /\
       Z.of_nat (length positions) = num_sparkles /\
       painted =
         fold_left write
           (map (sparkle rgb)
                (combine (set_iter positions)
                         (map percent
                              (window (drawn w + 1 + d) (Z.to_nat num_sparkles)))))
           filled /\
       w' = drew (1 + d + Z.to_nat num_sparkles) w).
Proof using set_iter_perm.
  unfold SparkleAnimation_run. unfold bind at 1.
  destruct (normalize _ w) as [[rgb w0] | e |] eqn:Hn; try discriminate.
  pose proof (normalize_pure _ _ _ _ Hn) as ->.
  unfold bind at 1. rewrite randint_ok by lia.
  change (25 + draws (drawn w) mod (75 - 25 + 1))
    with (25 + draws (drawn w) mod 51).
  set (n := Z.of_nat (length (pixels (strip (fields self))))).
  set (p := 25 + draws (drawn w) mod 51).
  set (k := int_of_Q (inject_Z p / 100 * inject_Z n)).
  set (filled := fill (map (fun v => v / 3) rgb) (strip (fields self))).
  assert (Hk : 0 <= k).
  { subst k. assert (0 <= draws (drawn w) mod 51 < 51) by (apply Z.mod_pos_bound; lia).
    assert (Hp : 0 <= p) by (subst p; lia).
    assert (Hn0 : 0 <= n) by (subst n; lia).
    rewrite (proj1 (percent_of_floor p n Hp Hn0)).
    apply Z.div_pos; [nia | lia]. }
  unfold bind at 1. destruct (tuple_eqb rgb BLACK) eqn:Hb; cbn [negb].
  - unfold ret. intros Hrun. injection Hrun as <- <-.
    exists rgb, filled. split; [reflexivity |]. split; [reflexivity |].
    left. auto.
  - unfold bind at 1.
    destruct (sample_positions fuel k n [] (drew 1 w)) as [[pos w2] | e |] eqn:Hs;
      try discriminate.
    destruct (sample_positions_inv _ _ _ _ _ _ _ Hs) as (Hnd & Hin & Hlen & d & ->);
      [constructor | constructor | simpl; lia |].
    unfold bind at 1. rewrite draw_multipliers_ok.
    rewrite drew_drew in *. rewrite drew_drew.
    change (drawn (drew (1 + d) w)) with (drawn w + (1 + d))%nat.
    replace (drawn w + (1 + d))%nat with (drawn w + 1 + d)%nat by lia.
    unfold enumerate. rewrite paint_enumerate.
    + unfold ret. intros Hrun. injection Hrun as <- <-.
      eexists rgb, _. split; [reflexivity |]. split; [reflexivity |].
      right. split; [exact Hb |]. exists pos, d. simpl skipn.
      repeat split; auto.
    + rewrite (Permutation_length (set_iter_perm pos)).
      unfold window. rewrite length_map, length_map, length_seq. lia.
    + apply Forall_forall. intros x Hx.
      apply (Permutation_in _ (set_iter_perm pos)) in Hx.
      rewrite Forall_forall in Hin. unfold filled, fill. simpl.
      rewrite length_map. now apply Hin.
Qed.

(** *** Termination of the sampling loop *)





(** *** Shape of the log and of the frame *)

Lemma to_bytes3_big_endian (c : Z) (w : World) :
  0 <= c < 16777216 ->
  to_bytes3 c w = Ok ([c / 65536; c / 256 mod 256; c mod 256], w).
Proof.
  intros Hc. unfold to_bytes3.
  replace ((0 <=? c) && (c <? 16777216)) with true
    by (symmetry; apply andb_true_iff; lia).
  unfold ret. change 255 with (Z.ones 8).
  rewrite !Z.land_ones by lia. rewrite !Z.shiftr_div_pow2 by lia.
  change (2 ^ 16) with 65536. change (2 ^ 8) with 256.
  rewrite (Z.mod_small (c / 65536)); [reflexivity |].
  split; [apply Z.div_pos; lia | apply Z.div_lt_upper_bound; lia].
Qed.

Lemma fill_pixels (c : list Z) (s : NeoPixel) :
  pixels (fill c s) = repeat c (length (pixels s)).
Proof.
  unfold fill. simpl. induction (pixels s) as [| h t IH]; simpl; congruence.
Qed.

Lemma map_fst_sparkle (rgb : list Z) (l : list Z) (ms : list Q) :
  (length l <= length ms)%nat ->
  map fst (map (sparkle rgb) (combine l ms)) = l.
Proof.
  revert ms. induction l as [| x t IH]; intros [| m ms] Hlen; simpl in *;
    try reflexivity; try lia.
  f_equal. apply IH. lia.
Qed.

Lemma written_since_fill_sets (l : list (Z * list Z)) (c : list Z)
      (old : list StripOp) :
  written_since_fill
    (rev (map (fun pc => OpSet (fst pc) (snd pc)) l) ++ OpFill c :: old)
  = rev (map fst l).
Proof.
  rewrite <- map_rev, <- map_rev.
  induction (rev l) as [| pc t IH]; simpl; [reflexivity | now rewrite IH].
Qed.

Lemma shows_sets (l : list (Z * list Z)) (old : list StripOp) :
  shows (rev (map (fun pc => OpSet (fst pc) (snd pc)) l) ++ old) = shows old.
Proof.
  rewrite <- map_rev.
  induction (rev l) as [| pc t IH]; simpl; [reflexivity | exact IH].
Qed.

Lemma window_length (from n : nat) : length (window from n) = n.
Proof. unfold window. now rewrite length_map, length_seq. Qed.

(** What every completed pass looks like from the outside: the colour
    normalized, one fill with the dimmed colour, writes at distinct
    positions in range, one show. *)
Lemma pass_shape (fuel : nat) (self self' : Obj SparkleFields) (w w' : World) :
  SparkleAnimation_run fuel self w = Ok (self', w') ->
  exists rgb (sets : list (Z * list Z)) (d : nat),
    normalize (color (fields self)) w = Ok (rgb, w) /\
    w' = drew (1 + d) w /\
    frequency self' = frequency self /\
    oplog (strip (fields self')) =
      OpShow (pixels (strip (fields self')))
      :: rev (map (fun pc => OpSet (fst pc) (snd pc)) sets)
      ++ OpFill (map (fun v => v / 3) rgb) :: oplog (strip (fields self)) /\
    pixels (strip (fields self')) =
      pixels (fold_left write sets
                (fill (map (fun v => v / 3) rgb) (strip (fields self)))) /\
    NoDup (map fst sets) /\
    Forall (fun pc =>
              in_strip (Z.of_nat (length (pixels (strip (fields self))))) (fst pc))
           sets /\
    (tuple_eqb rgb BLACK = true -> sets = [] /\ d = O) /\
    (tuple_eqb rgb BLACK = false ->
       Z.of_nat (length sets) =
         int_of_Q (inject_Z (25 + draws (drawn w) mod 51) / 100
                   * inject_Z (Z.of_nat (length (pixels (strip (fields self))))))).
Proof using set_iter_perm.
  intros Hrun.
  destruct (SparkleAnimation_run_inv _ _ _ _ _ Hrun)
    as (rgb & painted & Hn & -> & [(Hb & -> & ->) | (Hb & pos & d & _ & Hnd & Hin & Hlen & -> & ->)]).
  - exists rgb, [], O. simpl. repeat split; auto; try constructor; congruence.
  - set (n := Z.of_nat (length (pixels (strip (fields self))))) in *.
    set (k := int_of_Q _) in *.
    set (ms := map percent (window (drawn w + 1 + d) (Z.to_nat k))).
    assert (Hms : (length (set_iter pos) <= length ms)%nat).
    { rewrite (Permutation_length (set_iter_perm pos)).
      unfold ms. rewrite length_map, window_length. lia. }
    assert (Hfst : map fst (map (sparkle rgb) (combine (set_iter pos) ms))
                   = set_iter pos) by (apply map_fst_sparkle, Hms).
    exists rgb, (map (sparkle rgb) (combine (set_iter pos) ms)), (d + Z.to_nat k)%nat.
    split; [exact Hn |]. split; [f_equal; lia |]. split; [reflexivity |].
    split; [simpl; now rewrite fold_write_oplog |].
    split; [reflexivity |].
    rewrite Hfst.
    split; [apply (Permutation_NoDup (Permutation_sym (set_iter_perm pos)) Hnd) |].
    split.
    + apply Forall_forall. intros pc Hpc.
      assert (Hf : In (fst pc) (set_iter pos)).
      { rewrite <- Hfst. now apply in_map. }
      apply (Permutation_in _ (set_iter_perm pos)) in Hf.
      rewrite Forall_forall in Hin. now apply Hin.
    + split; [congruence |]. intros _.
      rewrite <- (length_map fst), Hfst.
      now rewrite (Permutation_length (set_iter_perm pos)).
Qed.

(** A pass on black: nothing drawn but the one percentage, nothing
    painted, whatever the fuel. *)
Lemma black_pass (fuel : nat) (self : Obj SparkleFields) (w : World) :
  normalize (color (fields self)) w = Ok (BLACK, w) ->
  SparkleAnimation_run fuel self w
  = Ok (pass_result self (fill BLACK (strip (fields self))), drew 1 w).
Proof.
  intros Hn. unfold SparkleAnimation_run. unfold bind at 1. rewrite Hn.
  unfold bind at 1. rewrite randint_ok by lia. reflexivity.
Qed.

Lemma normalize_packed_inv (c : Z) (rgb : list Z) (w w' : World) :
  normalize (PackedColor c) w = Ok (rgb, w') ->
  0 <= c < 16777216 /\ rgb = [c / 65536; c / 256 mod 256; c mod 256].
Proof.
  simpl. intros Hn.
  assert (Hc : 0 <= c < 16777216).
  { unfold to_bytes3 in Hn. destruct (_ && _) eqn:E; [| discriminate].
    apply andb_true_iff in E. lia. }
  rewrite (to_bytes3_big_endian c w Hc) in Hn. injection Hn as <- _. auto.
Qed.

Lemma bytes_recompose (c : Z) :
  0 <= c < 16777216 ->
  c = c / 65536 * 65536 + c / 256 mod 256 * 256 + c mod 256 /\
  Forall (fun v => 0 <= v <= 255) [c / 65536; c / 256 mod 256; c mod 256].
Proof.
  clear. intros Hc. split.
  - Z.div_mod_to_equations. lia.
  - repeat constructor; Z.div_mod_to_equations; lia.
Qed.

(** C4. In every completed render pass the colour is normalized first; a
    packed 24-bit integer [c] becomes its big-endian bytes (R, G, B), as
    0xFFAABB becomes (255, 170, 187); the strip is then filled with
    [base_color], the channels floor-divided by 3: the fill is the first
    operation of the pass, it sets every pixel, and every pixel no sparkle
    overwrote still holds [base_color] when the frame is shown. *)
Theorem pass_normalizes_then_fills (fuel : nat) (self self' : Obj SparkleFields)
        (w w' : World) :
  SparkleAnimation_run fuel self w = Ok (self', w') ->
  exists rgb,
    normalize (color (fields self)) w = Ok (rgb, w) /\
    (forall c, color (fields self) = PackedColor c ->
       0 <= c < 16777216 /\
       rgb = [c / 65536; c / 256 mod 256; c mod 256] /\
       c = c / 65536 * 65536 + c / 256 mod 256 * 256 + c mod 256 /\
       Forall (fun v => 0 <= v <= 255) rgb) /\
    normalize (PackedColor 16755387) w = Ok ([255; 170; 187], w) /\
    let base_color := map (fun color_value => color_value / 3) rgb in
    let n := length (pixels (strip (fields self))) in
    pixels (fill base_color (strip (fields self))) = repeat base_color n /\
    (exists sets,
        oplog (strip (fields self')) =
          OpShow (pixels (strip (fields self')))
          :: rev (map (fun pc => OpSet (fst pc) (snd pc)) sets)
          ++ OpFill base_color :: oplog (strip (fields self))) /\
    length (pixels (strip (fields self'))) = n /\
    (forall i, (i < n)%nat ->
       ~ In (Z.of_nat i) (written_since_fill (oplog (strip (fields self')))) ->
       nth_error (pixels (strip (fields self'))) i = Some base_color).
Proof using set_iter_perm.
  intros Hrun.
  destruct (pass_shape _ _ _ _ _ Hrun)
    as (rgb & sets & d & Hn & _ & _ & Hlog & Hpx & _ & Hin & _ & _).
  exists rgb. split; [exact Hn |]. split.
  { intros c Hc. rewrite Hc in Hn.
    destruct (normalize_packed_inv _ _ _ _ Hn) as (Hr & ->).
    split; [exact Hr |]. split; [reflexivity |].
    apply bytes_recompose, Hr. }
  split; [reflexivity |]. cbv zeta.
  split; [apply fill_pixels |]. split; [exists sets; exact Hlog |].
  assert (Hfl : length (pixels (fill (map (fun v => v / 3) rgb) (strip (fields self))))
                = length (pixels (strip (fields self)))).
  { rewrite fill_pixels. apply repeat_length. }
  split; [rewrite Hpx, fold_write_length; exact Hfl |].
  intros i Hi Hni. rewrite Hpx, fold_write_untouched.
  - rewrite fill_pixels. apply nth_error_repeat. exact Hi.
  - rewrite Hfl. exact Hin.
  - intros Hw. apply Hni. rewrite Hlog. simpl.
    rewrite written_since_fill_sets. now apply in_rev in Hw.
Qed.

(** C5. When the normalized colour is (0, 0, 0) the pass returns, whatever
    the fuel, having done a fill and a show and nothing in between: no pixel
    is written after the fill, and the frame shown is black everywhere. *)
Theorem black_pass_places_no_sparkle (fuel : nat) (self : Obj SparkleFields)
        (w : World) :
  normalize (color (fields self)) w = Ok (BLACK, w) ->
  exists self',
    SparkleAnimation_run fuel self w = Ok (self', drew 1 w) /\
    let n := length (pixels (strip (fields self))) in
    oplog (strip (fields self')) =
      OpShow (repeat BLACK n) :: OpFill BLACK :: oplog (strip (fields self)) /\
    written_since_fill (oplog (strip (fields self'))) = [] /\
    pixels (strip (fields self')) = repeat BLACK n /\
    Forall (fun px => px = [0; 0; 0]) (pixels (strip (fields self'))).
Proof.
  intros Hn. eexists. split; [apply black_pass, Hn |].
  cbv zeta. simpl. rewrite <- (fill_pixels BLACK). simpl.
  repeat split; try reflexivity.
  apply Forall_forall. intros px Hpx. apply in_map_iff in Hpx.
  now destruct Hpx as (? & <- & _).
Qed.


(** *** Which multiplier goes to which position *)





(** *** The pass depends on colour, strip length and draws only *)


Lemma sample_positions_det (k n : Z) (fuel1 : nat) :
  forall (fuel2 : nat) (s r1 r2 : list Z) (w1 w2 w1' w2' : World),
    drawn w1 = drawn w2 ->
    sample_positions fuel1 k n s w1 = Ok (r1, w1') ->
    sample_positions fuel2 k n s w2 = Ok (r2, w2') ->
    r1 = r2 /\ drawn w1' = drawn w2'.
Proof.
  induction fuel1 as [| fuel1 IH]; intros [| fuel2] s r1 r2 w1 w2 w1' w2' Hd H1 H2;
    simpl in H1, H2; destruct (_ <? _); try discriminate;
    try (injection H1 as <- <-; injection H2 as <- <-; auto).
  unfold bind in H1, H2. unfold randint in H1, H2.
  destruct (n - 1 <? 0); try discriminate.
  rewrite Hd in H1. eapply IH; [| exact H1 | exact H2]. simpl. congruence.
Qed.

Lemma fold_write_pixels (l : list (Z * list Z)) :
  forall s : NeoPixel,
    pixels (fold_left write l s) =
      fold_left (fun px pc => set_nth (Z.to_nat (fst pc)) (snd pc) px) l (pixels s).
Proof.
  induction l as [| pc t IH]; intros s; simpl; [reflexivity | now rewrite IH].
Qed.


(** C10. Every completed pass has consumed the percentage draw and ends in
    exactly one show, of the buffer as it then is; on black, where nothing
    else is drawn, the pass returns whatever the fuel, advances the random
    source by exactly that one draw, and still shows the strip once. *)
Theorem pass_draws_first_and_shows_once :
  (forall fuel self self' w w',
      SparkleAnimation_run fuel self w = Ok (self', w') ->
      (exists d, w' = drew (1 + d) w) /\
      shows (oplog (strip (fields self'))) = S (shows (oplog (strip (fields self)))) /\
      exists earlier,
        oplog (strip (fields self')) =
          OpShow (pixels (strip (fields self'))) :: earlier) /\
  (forall fuel self w,
      normalize (color (fields self)) w = Ok (BLACK, w) ->
      exists self',
        SparkleAnimation_run fuel self w = Ok (self', drew 1 w) /\
        drawn (drew 1 w) = S (drawn w) /\
        shows (oplog (strip (fields self'))) = S (shows (oplog (strip (fields self)))) /\
        oplog (strip (fields self')) =
          OpShow (pixels (strip (fields self')))
          :: OpFill BLACK :: oplog (strip (fields self))).
Proof using set_iter_perm.
  split.
  - intros fuel self self' w w' Hrun.
    destruct (pass_shape _ _ _ _ _ Hrun)
      as (rgb & sets & d & _ & Hw & _ & Hlog & _).
    split; [exists d; exact Hw |]. rewrite Hlog. split.
    + simpl. now rewrite shows_sets.
    + eexists. reflexivity.
  - intros fuel self w Hn. eexists. split; [apply black_pass, Hn |].
    simpl. repeat split. lia.
Qed.

#[export] Instance SparkleAnimation_frame (fuel : nat) :
  @ActionFrame SparkleFields (SparkleAnimation_action fuel).
Proof using set_iter_perm.
  split; intros o w o' w' Hrun; simpl in Hrun;
    destruct (pass_shape _ _ _ _ _ Hrun) as (rgb & sets & d & _ & -> & Hf & _);
    simpl; auto.
Qed.

(** ** Further properties of PeriodicTask *)

(** X1. A task whose frequency is zero cannot be updated: every call of
    [update] raises [ZeroDivisionError], whatever the time and the action, so
    the driver loop stops at its first turn. *)
Theorem update_zero_frequency_raises {E} `{Action E} (self : Obj E) (w : World) :
  (frequency self == 0)%Q ->
  update self w = Raise ZeroDivisionError /\
  forall (touch : E -> E) (rest : list (E -> E)),
    main_loop (touch :: rest) self w = Raise ZeroDivisionError.
Proof.
  intros Hz.
  assert (Hup : forall (o : Obj E) (w0 : World),
             (frequency o == 0)%Q -> update o w0 = Raise ZeroDivisionError).
  { intros o w0 Ho. unfold update, bind at 1. unfold monotonic_ns at 1.
    unfold bind at 1. now rewrite period_ns_zero. }
  split; [now apply Hup |].
  intros touch rest. simpl. unfold bind. now rewrite Hup.
Qed.

Lemma negative_period (f : Q) :
  (f < 0)%Q -> (- (1000000000) <= f)%Q ->
  int_of_Q (1 / f * 1000000000) <= -1.
Proof.
  destruct f as [n d]. unfold Qlt, Qle. cbn [Qnum Qden]. intros Hneg Hlow.
  change (-1000000000 * Z.pos d <= n * 1) in Hlow.
  destruct n as [| p | p]; try lia.
  unfold int_of_Q, Qdiv, Qmult, Qinv. cbn [Qnum Qden].
  rewrite Pos.mul_1_l, Pos.mul_1_r, Z.mul_1_l.
  change (Z.neg d * 1000000000) with (- (Z.pos d * 1000000000)).
  rewrite Z.quot_opp_l by lia.
  assert (1 <= Z.pos d * 1000000000 ÷ Z.pos p); [| lia].
  rewrite Z.quot_div_nonneg by lia.
  apply Z.div_le_lower_bound; lia.
Qed.

(** With a negative frequency the next fire time lies in the past. *)
Lemma update_negative_fires {E} `{ActionFrame E} (self self' : Obj E)
      (w w' : World) :
  (frequency self < 0)%Q -> (- (1000000000) <= frequency self)%Q ->
  monotone ticks ->
  _last_update_time self <= ticks (reads w) ->
  update self w = Ok (self', w') ->
  frequency self' = frequency self /\
  length (journal w') = S (length (journal w)) /\
  _last_update_time self' <= ticks (reads w').
Proof.
  intros Hneg Hlow Hmono Hlast Hup.
  assert (Hnz : ~ (frequency self == 0)%Q).
  { intros E0. rewrite E0 in Hneg. discriminate. }
  rewrite (update_unfold self w Hnz) in Hup.
  pose proof (negative_period _ Hneg Hlow) as Hp.
  replace (_ >? _) with true in Hup by (symmetry; lia).
  destruct (run self (ticked w)) as [[o w1] | e |] eqn:Hrun; try discriminate.
  injection Hup as <- <-. simpl.
  rewrite (run_journal _ _ _ _ Hrun). simpl.
  split; [apply (run_frequency _ _ _ _ Hrun) |]. split; [reflexivity |].
  apply Hmono. lia.
Qed.

(** X2. A task whose frequency is negative (down to minus one fire per
    nanosecond) is not throttled at all: on a monotonic clock, once
    [_last_update_time] is not in the future, every turn of the driver loop
    runs the action. *)
Theorem negative_frequency_fires_every_turn {E} `{ActionFrame E}
        (turns : list (E -> E)) :
  monotone ticks ->
  forall (self self' : Obj E) (w w' : World),
    (frequency self < 0)%Q -> (- (1000000000) <= frequency self)%Q ->
    _last_update_time self <= ticks (reads w) ->
    main_loop turns self w = Ok (self', w') ->
    length (journal w') = (length turns + length (journal w))%nat.
Proof.
  intros Hmono. induction turns as [| touch rest IH];
    intros self self' w w' Hneg Hlow Hlast Hrun.
  - injection Hrun as <- <-. reflexivity.
  - simpl in Hrun. unfold bind in Hrun.
    destruct (update _ w) as [[o w1] | e |] eqn:Hup; try discriminate.
    destruct (update_negative_fires
                {| frequency := frequency self;
                   _last_update_time := _last_update_time self;
                   fields := touch (fields self) |} o w w1
                Hneg Hlow Hmono Hlast Hup)
      as (Hf & Hj & Hl).
    simpl in Hf. rewrite <- Hf in Hneg, Hlow.
    rewrite (IH _ _ _ _ Hneg Hlow Hl Hrun), Hj. simpl. lia.
Qed.

(** ** Further properties of SparkleAnimation *)

Lemma sample_positions_no_raise (k n : Z) (fuel : nat) :
  (0 < k -> 0 < n) ->
  forall (s : list Z) (w : World) (e : exn),
    sample_positions fuel k n s w <> Raise e.
Proof.
  intros Hn. induction fuel as [| fuel IH]; intros s w e; simpl.
  - destruct (_ <? _); discriminate.
  - destruct (_ <? _) eqn:E; [| discriminate].
    apply Z.ltb_lt in E. assert (Hn' : 0 < n) by (apply Hn; lia).
    unfold bind. rewrite randint_ok by lia. apply IH.
Qed.

Lemma percentage_range (w : World) :
  25 <= 25 + draws (drawn w) mod 51 <= 75.
Proof.
  assert (0 <= draws (drawn w) mod 51 < 51) by (apply Z.mod_pos_bound; lia). lia.
Qed.

Lemma num_sparkles_positive_strip (p n : Z) :
  0 <= p -> 0 <= n ->
  0 < int_of_Q (inject_Z p / 100 * inject_Z n) -> 0 < n.
Proof.
  intros Hp Hn. rewrite (proj1 (percent_of_floor p n Hp Hn)). intros Hk.
  destruct (Z.eq_dec n 0) as [E0 | ]; [| lia].
  rewrite E0, Z.mul_0_r in Hk. discriminate Hk.
Qed.

(** A pass that raises was given an integer colour outside [0, 2^24). *)
Lemma pass_raise_inv (fuel : nat) (self : Obj SparkleFields) (w : World) (e : exn) :
  SparkleAnimation_run fuel self w = Raise e ->
  e = OverflowError /\
  exists c, color (fields self) = PackedColor c /\ ~ 0 <= c < 16777216.
Proof using set_iter_perm.
  unfold SparkleAnimation_run. unfold bind at 1.
  destruct (normalize _ w) as [[rgb w0] | e0 |] eqn:Hn.
  - pose proof (normalize_pure _ _ _ _ Hn) as ->.
    unfold bind at 1. rewrite randint_ok by lia.
    change (25 + draws (drawn w) mod (75 - 25 + 1))
      with (25 + draws (drawn w) mod 51).
    pose proof (percentage_range w) as Hp.
    set (n := Z.of_nat (length (pixels (strip (fields self))))).
    set (p := 25 + draws (drawn w) mod 51) in *.
    set (k := int_of_Q (inject_Z p / 100 * inject_Z n)).
    assert (Hn0 : 0 <= n) by (subst n; lia).
    assert (Hkn : 0 < k -> 0 < n)
      by (apply num_sparkles_positive_strip; lia).
    unfold bind at 1. destruct (tuple_eqb rgb BLACK); cbn [negb].
    + discriminate.
    + unfold bind at 1.
      destruct (sample_positions fuel k n [] (drew 1 w))
        as [[pos w2] | e2 |] eqn:Hs.
      * destruct (sample_positions_inv _ _ _ _ _ _ _ Hs)
           as (Hnd & Hin & Hlen & _);
           [constructor | constructor | |].
         { simpl. subst k. rewrite (proj1 (percent_of_floor p n ltac:(lia) Hn0)).
           apply Z.div_pos; [nia | lia]. }
         unfold bind at 1. rewrite draw_multipliers_ok.
         unfold enumerate. rewrite paint_enumerate.
         -- discriminate.
         -- rewrite (Permutation_length (set_iter_perm pos)).
            rewrite length_map, window_length. lia.
         -- apply Forall_forall. intros x Hx.
            apply (Permutation_in _ (set_iter_perm pos)) in Hx.
            rewrite Forall_forall in Hin. rewrite fill_pixels, repeat_length.
            now apply Hin.
      * exfalso. exact (sample_positions_no_raise k n fuel Hkn _ _ _ Hs).
      * discriminate.
  - intros He. injection He as <-.
    destruct (color (fields self)) as [c | t]; simpl in Hn; [| discriminate].
    unfold to_bytes3 in Hn. destruct (_ && _) eqn:Hc; [discriminate |].
    injection Hn as <-. split; [reflexivity |]. exists c. split; [reflexivity |].
    intros Hr. apply andb_false_iff in Hc. destruct Hc as [Hc | Hc]; lia.
  - discriminate.
Qed.


(** X4. On a strip of at most one pixel nothing ever sparkles: fewer than
    one pixel is 75 percent of it at most, so for every colour that
    normalizes the pass returns without fuel after the one percentage draw,
    [randint(0, N - 1)] is never called (not even with an empty range), and
    the frame shown is [base_color] everywhere. *)
Theorem short_strip_never_sparkles (fuel : nat) (self : Obj SparkleFields)
        (w : World) (rgb : list Z) :
  (length (pixels (strip (fields self))) <= 1)%nat ->
  normalize (color (fields self)) w = Ok (rgb, w) ->
  exists self',
    SparkleAnimation_run fuel self w = Ok (self', drew 1 w) /\
    let base_color := map (fun v => v / 3) rgb in
    oplog (strip (fields self')) =
      OpShow (pixels (strip (fields self')))
      :: OpFill base_color :: oplog (strip (fields self)) /\
    pixels (strip (fields self')) =
      repeat base_color (length (pixels (strip (fields self)))).
Proof using set_iter_perm.
  intros Hlen Hn.
  exists (pass_result self (fill (map (fun v => v / 3) rgb) (strip (fields self)))).
  split; [| split; [reflexivity | apply fill_pixels]].
  unfold SparkleAnimation_run. unfold bind at 1. rewrite Hn.
  unfold bind at 1. rewrite randint_ok by lia.
  change (25 + draws (drawn w) mod (75 - 25 + 1))
    with (25 + draws (drawn w) mod 51).
  pose proof (percentage_range w) as Hp.
  set (n := Z.of_nat (length (pixels (strip (fields self))))).
  set (p := 25 + draws (drawn w) mod 51) in *.
  assert (Hk : int_of_Q (inject_Z p / 100 * inject_Z n) = 0).
  { rewrite (proj1 (percent_of_floor p n ltac:(lia) ltac:(subst n; lia))).
    apply Z.div_small. subst n. nia. }
  rewrite Hk. unfold bind at 1. destruct (tuple_eqb rgb BLACK); cbn [negb].
  - reflexivity.
  - assert (Hs : forall w0, sample_positions fuel 0 n [] w0 = Ok ([], w0)).
    { intros w0. destruct fuel; reflexivity. }
    unfold bind at 1. rewrite Hs. unfold bind at 1. simpl draw_multipliers.
    unfold ret at 1.
    assert (Hnil : set_iter [] = []).
    { apply Permutation_nil. apply Permutation_sym, set_iter_perm. }
    rewrite Hnil. reflexivity.
Qed.

(** Either some index below [n] is missing from [l], or all are there. *)
Lemma classic_free_index (l : list Z) (n : nat) :
  (exists i, (i < n)%nat /\ ~ In (Z.of_nat i) l) \/
  (forall i, (i < n)%nat -> In (Z.of_nat i) l).
Proof.
  induction n as [| n IH].
  - right. intros i Hi. lia.
  - destruct IH as [(i & Hi & Hni) | Hall].
    + left. exists i. split; [lia | exact Hni].
    + destruct (in_dec Z.eq_dec (Z.of_nat n) l) as [Hin | Hout].
      * right. intros i Hi. destruct (Nat.eq_dec i n) as [-> | ]; [exact Hin |].
        apply Hall. lia.
      * left. exists n. split; [lia | exact Hout].
Qed.

(** X5. In a completed pass on a colour other than black, between a quarter
    and three quarters of the pixels (rounded down) are written after the
    fill; on a non-empty strip that is never all of them, so some pixel
    always keeps [base_color]. *)
Theorem sparkle_count_between_quarters (fuel : nat)
        (self self' : Obj SparkleFields) (w w' : World) (rgb : list Z) :
  SparkleAnimation_run fuel self w = Ok (self', w') ->
  normalize (color (fields self)) w = Ok (rgb, w) ->
  tuple_eqb rgb BLACK = false ->
  let n := Z.of_nat (length (pixels (strip (fields self)))) in
  let count :=
    Z.of_nat (length (written_since_fill (oplog (strip (fields self'))))) in
  25 * n / 100 <= count <= 75 * n / 100 /\
  (0 < n -> count < n) /\
  (0 < n ->
   exists i, (i < length (pixels (strip (fields self'))))%nat /\
             nth_error (pixels (strip (fields self'))) i
             = Some (map (fun v => v / 3) rgb)).
Proof using set_iter_perm.
  intros Hrun Hn Hb n count.
  destruct (pass_shape _ _ _ _ _ Hrun)
    as (rgb' & sets & d & Hn' & _ & _ & Hlog & Hpx & Hnd & Hin & _ & Hcount).
  rewrite Hn in Hn'. injection Hn' as <-.
  specialize (Hcount Hb). fold n in Hcount, Hin.
  pose proof (percentage_range w) as Hp.
  set (p := 25 + draws (drawn w) mod 51) in *.
  assert (Hn0 : 0 <= n) by (subst n; lia).
  rewrite (proj1 (percent_of_floor p n ltac:(lia) Hn0)) in Hcount.
  assert (Hw : written_since_fill (oplog (strip (fields self'))) = rev (map fst sets)).
  { rewrite Hlog. simpl. apply written_since_fill_sets. }
  assert (Hc : count = p * n / 100).
  { unfold count. rewrite Hw, length_rev, length_map. exact Hcount. }
  assert (Hlt : 0 < n -> count < n).
  { intros Hpos. rewrite Hc. apply Z.div_lt_upper_bound; nia. }
  split; [| split; [exact Hlt |]].
  - rewrite Hc. split; apply Z.div_le_mono; nia.
  - intros Hpos. specialize (Hlt Hpos).
    assert (Hfl : length (pixels (fill (map (fun v => v / 3) rgb)
                                       (strip (fields self))))
                  = length (pixels (strip (fields self)))).
    { rewrite fill_pixels. apply repeat_length. }
    (* some index of the strip is not among the written ones *)
    assert (Hfree : exists i, (i < length (pixels (strip (fields self))))%nat /\
                              ~ In (Z.of_nat i) (map fst sets)).
    { destruct (classic_free_index (map fst sets)
                  (length (pixels (strip (fields self))))) as [Hex | Hall];
        [exact Hex |].
      exfalso. unfold count in Hlt. rewrite Hw, length_rev in Hlt.
      pose proof (NoDup_incl_length
                    (l := map Z.of_nat (seq 0 (length (pixels (strip (fields self))))))
                    (l' := map fst sets)) as Hincl.
      rewrite length_map, length_seq in Hincl.
      assert (length (pixels (strip (fields self))) <= length (map fst sets))%nat.
      { apply Hincl.
        - apply Finite.Injective_map_NoDup; [| apply seq_NoDup].
          intros a b Hab. lia.
        - intros z Hz. apply in_map_iff in Hz. destruct Hz as (i & <- & Hi).
          apply in_seq in Hi. apply Hall. lia. }
      unfold n in Hlt. lia. }
    destruct Hfree as (i & Hi & Hni). exists i.
    split; [rewrite Hpx, fold_write_length, Hfl; exact Hi |].
    rewrite Hpx, fold_write_untouched; [| rewrite Hfl; exact Hin | exact Hni].
    rewrite fill_pixels. now apply nth_error_repeat.
Qed.

Lemma sample_positions_cost (k n : Z) (fuel : nat) :
  forall (s r : list Z) (w w' : World),
    sample_positions fuel k n s w = Ok (r, w') ->
    (drawn w <= drawn w')%nat /\
    (length r <= length s + (drawn w' - drawn w))%nat.
Proof.
  induction fuel as [| fuel IH]; intros s r w w' Hrun; simpl in Hrun.
  - destruct (_ <? _); [discriminate |]. injection Hrun as <- <-. lia.
  - destruct (_ <? _).
    + unfold bind in Hrun.
      destruct (randint 0 (n - 1) w) as [[x w1] | e |] eqn:Hr; try discriminate.
      apply randint_range in Hr. destruct Hr as (_ & ->).
      apply IH in Hrun. simpl in Hrun.
      pose proof (set_add_length x s). lia.
    + injection Hrun as <- <-. lia.
Qed.

(** X6. Every sparkle costs at least two draws, one for its position and one
    for its multiplier: a completed pass on a colour other than black
    advances the random source by at least [1 + 2 * num_sparkles] draws, and
    by more only when a position was drawn twice. *)
Theorem pass_consumes_two_draws_per_sparkle (fuel : nat)
        (self self' : Obj SparkleFields) (w w' : World) (rgb : list Z) :
  SparkleAnimation_run fuel self w = Ok (self', w') ->
  normalize (color (fields self)) w = Ok (rgb, w) ->
  tuple_eqb rgb BLACK = false ->
  let count := length (written_since_fill (oplog (strip (fields self')))) in
  (drawn w + 1 + 2 * count <= drawn w')%nat /\
  reads w' = reads w /\ journal w' = journal w.
Proof using set_iter_perm.
  intros Hrun Hn Hb.
  destruct (SparkleAnimation_run_inv _ _ _ _ _ Hrun)
    as (rgb' & painted & Hn' & -> & [(Hb' & _) | (_ & pos & d & Hs & Hnd & Hin & Hlen & -> & ->)]);
    rewrite Hn in Hn'; injection Hn' as <-; [congruence |].
  set (k := int_of_Q _) in *. clearbody k.
  cbv zeta. simpl. rewrite fold_write_oplog. simpl oplog.
  rewrite written_since_fill_sets, length_rev, map_fst_sparkle.
  - rewrite (Permutation_length (set_iter_perm pos)).
    apply sample_positions_cost in Hs. simpl in Hs.
    repeat split. lia.
  - rewrite (Permutation_length (set_iter_perm pos)).
    rewrite length_map, window_length. lia.
Qed.

Lemma set_nth_Forall {A} (P : A -> Prop) (n : nat) (x : A) (l : list A) :
  P x -> Forall P l -> Forall P (set_nth n x l).
Proof.
  intros Hx Hl. revert n. induction Hl as [| h t Hh Ht IH]; intros [| n]; simpl;
    constructor; auto.
Qed.

Lemma fold_write_Forall (P : list Z -> Prop) (l : list (Z * list Z)) :
  forall s : NeoPixel,
    Forall P (pixels s) -> Forall (fun pc => P (snd pc)) l ->
    Forall P (pixels (fold_left write l s)).
Proof.
  induction l as [| pc t IH]; intros s Hs Hl; simpl; [exact Hs |].
  inversion Hl as [| ? ? Hpc Ht]; subst.
  apply IH; [| exact Ht]. simpl. now apply set_nth_Forall.
Qed.

Lemma within_dimmed (rgb : list Z) :
  Forall (fun v => 0 <= v) rgb ->
  Forall2 (fun c v => 0 <= c <= v * 90 / 100) (map (fun v => v / 3) rgb) rgb.
Proof.
  induction 1 as [| v t Hv Ht IH]; simpl; constructor; [| exact IH].
  split; [apply Z.div_pos; lia |].
  apply Z.div_le_lower_bound; [lia |].
  assert (3 * (v / 3) <= v) by (apply Z.mul_div_le; lia). lia.
Qed.

Lemma within_sparkle (rgb : list Z) (r : Z) :
  Forall (fun v => 0 <= v) rgb ->
  Forall2 (fun c v => 0 <= c <= v * 90 / 100) (sparkle_color rgb (percent r)) rgb.
Proof.
  assert (Hk : 0 <= r mod 91 < 91) by (apply Z.mod_pos_bound; lia).
  induction 1 as [| v t Hv Ht IH]; simpl; constructor; [| exact IH].
  unfold percent. rewrite scaled_quot. rewrite Z.quot_div_nonneg by nia.
  split; [apply Z.div_pos; nia | apply Z.div_le_mono; nia].
Qed.

(** X7. A pass only shows colours derived from the one it was given: with
    non-negative channels, every pixel of the frame has as many components
    as the colour, each between 0 and 90 percent of the corresponding
    channel; so a colour of bytes gives a frame of bytes, none above 229. *)
Theorem frame_within_colour (fuel : nat) (self self' : Obj SparkleFields)
        (w w' : World) (rgb : list Z) :
  SparkleAnimation_run fuel self w = Ok (self', w') ->
  normalize (color (fields self)) w = Ok (rgb, w) ->
  Forall (fun v => 0 <= v) rgb ->
  Forall (fun px => Forall2 (fun c v => 0 <= c <= v * 90 / 100) px rgb)
         (pixels (strip (fields self'))) /\
  (Forall (fun v => v <= 255) rgb ->
   Forall (Forall (fun c => 0 <= c <= 229)) (pixels (strip (fields self')))).
Proof using set_iter_perm.
  intros Hrun Hn Hpos.
  assert (Hall : Forall (fun px => Forall2 (fun c v => 0 <= c <= v * 90 / 100) px rgb)
                        (pixels (strip (fields self')))).
  { destruct (SparkleAnimation_run_inv _ _ _ _ _ Hrun)
      as (rgb' & painted & Hn' & -> & Hcase);
      rewrite Hn in Hn'; injection Hn' as <-.
    assert (Hfill : Forall (fun px => Forall2 (fun c v => 0 <= c <= v * 90 / 100) px rgb)
                           (pixels (fill (map (fun v => v / 3) rgb)
                                         (strip (fields self))))).
    { rewrite fill_pixels. apply Forall_forall. intros px Hpx.
      apply repeat_spec in Hpx. subst px. now apply within_dimmed. }
    destruct Hcase as [(_ & -> & _) | (_ & pos & d & _ & _ & _ & _ & -> & _)];
      simpl; [exact Hfill |].
    apply fold_write_Forall; [exact Hfill |].
    apply Forall_forall. intros pc Hpc. apply in_map_iff in Hpc.
    destruct Hpc as ([p m] & <- & Hpm). apply in_combine_r in Hpm.
    apply in_map_iff in Hpm. destruct Hpm as (r & <- & _).
    simpl. now apply within_sparkle. }
  split; [exact Hall |]. intros Hbyte.
  eapply Forall_impl; [| exact Hall]. intros px Hpx.
  clear - Hpx Hbyte Hpos. induction Hpx as [| c v px t Hc Ht IH]; constructor.
  - inversion Hbyte; subst. inversion Hpos; subst.
    assert (Hv : v * 90 / 100 <= 255 * 90 / 100) by (apply Z.div_le_mono; lia).
    change (255 * 90 / 100) with 229 in Hv. lia.
  - inversion Hbyte; subst. inversion Hpos; subst. auto.
Qed.

Lemma normalize_packed_bytes (r g b : Z) (w : World) :
  0 <= r <= 255 -> 0 <= g <= 255 -> 0 <= b <= 255 ->
  normalize (PackedColor (r * 65536 + g * 256 + b)) w = Ok ([r; g; b], w).
Proof.
  clear. intros Hr Hg Hb. simpl. rewrite to_bytes3_big_endian by lia.
  repeat f_equal; Z.div_mod_to_equations; lia.
Qed.

(** Two completed passes whose colours normalize to the same tuple, on
    strips of the same length, from the same random position, show the same
    pixels. *)
Lemma pass_same_for_same_rgb (fuel1 fuel2 : nat)
      (self1 self2 self1' self2' : Obj SparkleFields) (w1 w2 w1' w2' : World)
      (rgb : list Z) :
  normalize (color (fields self1)) w1 = Ok (rgb, w1) ->
  normalize (color (fields self2)) w2 = Ok (rgb, w2) ->
  length (pixels (strip (fields self1))) = length (pixels (strip (fields self2))) ->
  drawn w1 = drawn w2 ->
  SparkleAnimation_run fuel1 self1 w1 = Ok (self1', w1') ->
  SparkleAnimation_run fuel2 self2 w2 = Ok (self2', w2') ->
  pixels (strip (fields self1')) = pixels (strip (fields self2')) /\
  drawn w1' = drawn w2'.
Proof using set_iter_perm.
  intros Hn1 Hn2 Hl Hd H1 H2.
  destruct (SparkleAnimation_run_inv _ _ _ _ _ H1) as (rgb1 & p1 & Hn1' & -> & C1).
  destruct (SparkleAnimation_run_inv _ _ _ _ _ H2) as (rgb2 & p2 & Hn2' & -> & C2).
  rewrite Hn1 in Hn1'. injection Hn1' as <-.
  rewrite Hn2 in Hn2'. injection Hn2' as <-.
  cbv zeta in C1, C2. rewrite <- Hl, <- Hd in C2.
  assert (Hf : pixels (fill (map (fun v => v / 3) rgb) (strip (fields self1)))
               = pixels (fill (map (fun v => v / 3) rgb) (strip (fields self2)))).
  { rewrite !fill_pixels. now rewrite Hl. }
  destruct C1 as [(Hb1 & -> & ->) | (Hb1 & pos1 & d1 & Hs1 & _ & _ & _ & -> & ->)];
    destruct C2 as [(Hb2 & -> & ->) | (Hb2 & pos2 & d2 & Hs2 & _ & _ & _ & -> & ->)];
    try congruence.
  - simpl. split; [exact Hf | lia].
  - assert (Hd1 : drawn (drew 1 w1) = drawn (drew 1 w2)) by (simpl; lia).
    destruct (sample_positions_det _ _ _ _ _ _ _ _ _ _ _ Hd1 Hs1 Hs2) as (<- & Hdd).
    simpl in Hdd. assert (d1 = d2) by lia. subst d2.
    simpl. rewrite !fold_write_pixels, Hf. split; [reflexivity | lia].
Qed.

(** X8. A colour given as the integer 0xRRGGBB and the same colour given as
    the tuple (RR, GG, BB) are rendered alike: the integer normalizes back
    to the tuple, and two completed passes that differ only in this (same
    strip length, same random position) show the same pixels. *)
Theorem packed_and_tuple_render_alike (fuel1 fuel2 : nat) (r g b : Z)
        (self1 self2 self1' self2' : Obj SparkleFields) (w1 w2 w1' w2' : World) :
  0 <= r <= 255 -> 0 <= g <= 255 -> 0 <= b <= 255 ->
  color (fields self1) = PackedColor (r * 65536 + g * 256 + b) ->
  color (fields self2) = ComponentColor [r; g; b] ->
  length (pixels (strip (fields self1))) = length (pixels (strip (fields self2))) ->
  drawn w1 = drawn w2 ->
  SparkleAnimation_run fuel1 self1 w1 = Ok (self1', w1') ->
  SparkleAnimation_run fuel2 self2 w2 = Ok (self2', w2') ->
  normalize (color (fields self1)) w1 = Ok ([r; g; b], w1) /\
  pixels (strip (fields self1')) = pixels (strip (fields self2')) /\
  drawn w1' = drawn w2'.
Proof using set_iter_perm.
  intros Hr Hg Hb Hc1 Hc2 Hl Hd H1 H2.
  assert (Hn1 : normalize (color (fields self1)) w1 = Ok ([r; g; b], w1)).
  { rewrite Hc1. now apply normalize_packed_bytes. }
  assert (Hn2 : normalize (color (fields self2)) w2 = Ok ([r; g; b], w2)).
  { rewrite Hc2. reflexivity. }
  split; [exact Hn1 |].
  exact (pass_same_for_same_rgb _ _ _ _ _ _ _ _ _ _ _ Hn1 Hn2 Hl Hd H1 H2).
Qed.

(** X9. A freshly constructed animation is dark: the constructor sets the
    colour to 0, so until a colour is assigned every pass, whatever the
    frequency, the strip and the fuel, returns after one draw with the whole
    strip black, and leaves [_last_update_time] at 0. *)
Theorem new_animation_renders_black (freq : Q) (strip0 : NeoPixel) (fuel : nat)
        (w : World) :
  exists self',
    (self <- SparkleAnimation_init freq strip0 ;; SparkleAnimation_run fuel self) w
    = Ok (self', drew 1 w) /\
    frequency self' = freq /\
    _last_update_time self' = 0 /\
    color (fields self') = PackedColor 0 /\
    pixels (strip (fields self')) = repeat BLACK (length (pixels strip0)) /\
    oplog (strip (fields self')) =
      OpShow (repeat BLACK (length (pixels strip0))) :: OpFill BLACK :: oplog strip0.
Proof.
  eexists. split.
  - unfold bind at 1. unfold SparkleAnimation_init, bind, PeriodicTask_init, ret.
    cbn [frequency _last_update_time]. apply black_pass. reflexivity.
  - simpl. rewrite <- (fill_pixels BLACK strip0). repeat split.
Qed.

(** X10. A pass changes nothing but the strip: frequency,
    [_last_update_time], [_offset] and [color] come back as they were, the
    clock and the journal are not touched, the strip keeps its length, and
    its log is only extended. *)
Theorem pass_only_touches_strip (fuel : nat) (self self' : Obj SparkleFields)
        (w w' : World) :
  SparkleAnimation_run fuel self w = Ok (self', w') ->
  frequency self' = frequency self /\
  _last_update_time self' = _last_update_time self /\
  _offset (fields self') = _offset (fields self) /\
  color (fields self') = color (fields self) /\
  reads w' = reads w /\ journal w' = journal w /\
  length (pixels (strip (fields self'))) = length (pixels (strip (fields self))) /\
  exists newer, oplog (strip (fields self')) = newer ++ oplog (strip (fields self)).
Proof using set_iter_perm.
  intros Hrun.
  destruct (SparkleAnimation_run_inv _ _ _ _ _ Hrun)
    as (rgb & painted & _ & -> & Hcase).
  assert (Hw : reads w' = reads w /\ journal w' = journal w).
  { destruct Hcase as [(_ & _ & ->) | (_ & pos & d & _ & _ & _ & _ & _ & ->)];
      simpl; auto. }
  assert (Hs : length (pixels painted) = length (pixels (strip (fields self))) /\
               exists newer, oplog (show painted) = newer ++ oplog (strip (fields self))).
  { destruct Hcase as [(_ & -> & _) | (_ & pos & d & _ & _ & _ & _ & -> & _)].
    - rewrite fill_pixels, repeat_length. split; [reflexivity |].
      eexists [_; _]. reflexivity.
    - rewrite fold_write_length, fill_pixels, repeat_length. split; [reflexivity |].
      simpl. rewrite fold_write_oplog. simpl.
      eexists (_ :: _ ++ [_]). simpl. rewrite <- app_assoc. reflexivity. }
  destruct Hw as (Hr & Hj). destruct Hs as (Hl & Hlog).
  simpl. repeat split; assumption.
Qed.

(** ** Properties of the buttons and of the touch handling *)

Lemma create_buttons_loop_app (width height x : Z) (items : list (string * list Z)) :
  forall (y : Z) (acc : list Button.t),
    create_buttons_loop items width height x y acc
    = acc ++ create_buttons_loop items width height x y [].
Proof.
  induction items as [| [k c] rest IH]; intros y acc; simpl.
  - now rewrite app_nil_r.
  - rewrite IH. rewrite (IH (y + 40) [_]). now rewrite <- app_assoc.
Qed.

Lemma create_buttons_loop_nth (width height x : Z) (items : list (string * list Z)) :
  forall (y : Z) (i : nat) (key : string) (colour : list Z),
    nth_error items i = Some (key, colour) ->
    nth_error (create_buttons_loop items width height x y []) i =
      Some {| Button.x := x; Button.y := y + 40 * Z.of_nat i;
              Button.width := width; Button.height := height;
              Button.style := SHADOWROUNDRECT;
              Button.fill_color := ComponentColor colour;
              Button.outline_color := 2236962;
              Button.name := key; Button.label := key;
              Button.label_font := arial_font;
              Button.label_color := 16777215 |}.
Proof.
  induction items as [| [k c] rest IH]; intros y i key colour Hi.
  - destruct i; discriminate.
  - cbn [create_buttons_loop]. rewrite create_buttons_loop_app. cbn [app].
    destruct i as [| i]; cbn [nth_error] in *.
    + injection Hi as -> ->. change (Z.of_nat 0) with 0.
      rewrite Z.mul_0_r, Z.add_0_r. reflexivity.
    + rewrite (IH (y + 40) i key colour Hi).
      replace (y + 40 + 40 * Z.of_nat i) with (y + 40 * Z.of_nat (S i)) by lia.
      reflexivity.
Qed.

Lemma create_buttons_loop_names (width height x : Z) (items : list (string * list Z)) :
  forall y : Z,
    map Button.name (create_buttons_loop items width height x y []) = map fst items.
Proof.
  induction items as [| [k c] rest IH]; intros y; simpl; [reflexivity |].
  rewrite create_buttons_loop_app. simpl. now rewrite IH.
Qed.

(** X11. [create_buttons] makes one button per entry of [color_labels], in
    the order the dict yields them: the [i]-th is named and labelled by the
    key, filled with the key's colour, placed at [x = offset] and
    [y = offset + int(height * 1.5) + 40 * i], with the width and height
    asked for; the step of 40 does not follow [height]. The three labels
    name one button each. *)
Theorem create_buttons_layout (width height offset : Z) :
  length (create_buttons width height offset) = 3%nat /\
  Permutation (map Button.name (create_buttons width height offset))
              [RED_LABEL; YELLOW_LABEL; GREEN_LABEL] /\
  forall (i : nat) (key : string) (colour : list Z),
    nth_error (dict_iter color_labels) i = Some (key, colour) ->
    nth_error (create_buttons width height offset) i =
      Some {| Button.x := offset;
              Button.y := offset + Z.quot (height * 3) 2 + 40 * Z.of_nat i;
              Button.width := width; Button.height := height;
              Button.style := SHADOWROUNDRECT;
              Button.fill_color := ComponentColor colour;
              Button.outline_color := 2236962;
              Button.name := key; Button.label := key;
              Button.label_font := arial_font;
              Button.label_color := 16777215 |}.
Proof using dict_iter_perm.
  assert (Hnames : map Button.name (create_buttons width height offset)
                   = map fst (dict_iter color_labels))
    by apply create_buttons_loop_names.
  split; [| split].
  - rewrite <- (length_map Button.name), Hnames, length_map.
    now rewrite (Permutation_length (dict_iter_perm color_labels)).
  - rewrite Hnames.
    apply (Permutation_map fst (dict_iter_perm color_labels)).
  - intros i key colour Hi. unfold create_buttons.
    apply (create_buttons_loop_nth width height offset _ _ i key colour Hi).
Qed.

Lemma press_consistent (b : Button.t) (app : App) :
  screen_consistent (screen app) -> screen_consistent (screen (press b app)).
Proof.
  intros Hc. unfold press.
  destruct (dict_get (Button.name b) status_backgrounds); [split; reflexivity |].
  destruct (String.eqb (Button.name b) "back"); [split; reflexivity | exact Hc].
Qed.

Lemma on_touch_consistent (bs : list Button.t) (p : Z * Z * Z) (app : App) :
  screen_consistent (screen app) -> screen_consistent (screen (on_touch bs p app)).
Proof.
  intros Hc. induction bs as [| b rest IH]; simpl; [exact Hc |].
  destruct (Button_contains b p); [now apply press_consistent | exact IH].
Qed.

(** X12. The menu and the back button are never on screen together: from
    the screen [init] leaves, and from any screen where the title goes with
    the menu and the back button is hidden exactly when the menu shows,
    every sequence of touches, on whatever buttons, keeps it so. *)
Theorem screen_stays_consistent (fuel : nat) (bs : list Button.t)
        (touches : list (option (Z * Z * Z))) :
  screen_consistent initial_screen /\
  forall (app app' : App) (w w' : World),
    screen_consistent (screen app) ->
    app_loop fuel bs touches app w = Ok (app', w') ->
    screen_consistent (screen app').
Proof.
  split; [split; reflexivity |].
  induction touches as [| t rest IH]; intros app app' w w' Hc Hrun.
  - injection Hrun as <- _. exact Hc.
  - simpl in Hrun. unfold bind in Hrun.
    destruct (update _ w) as [[p w1] | e |]; try discriminate.
    apply (IH _ _ _ _) in Hrun; [exact Hrun |]. simpl.
    destruct t as [point |]; simpl; [now apply on_touch_consistent | exact Hc].
Qed.

(** X13. A touch is handled by the first button of the list that contains
    it and by no other; a touch that no button contains, and a reading
    without touch, change nothing. *)
Theorem first_hit_button_handles_touch (bs : list Button.t) (point : Z * Z * Z)
        (app : App) :
  (forall pre b post,
      bs = pre ++ b :: post ->
      Forall (fun b' => Button_contains b' point = false) pre ->
      Button_contains b point = true ->
      handle_touch bs (Some point) app = press b app) /\
  (Forall (fun b' => Button_contains b' point = false) bs ->
   handle_touch bs (Some point) app = app) /\
  handle_touch bs None app = app.
Proof.
  split; [| split; [| reflexivity]].
  - intros pre b post -> Hpre Hb. simpl.
    induction Hpre as [| b' pre' Hb' Hpre' IH]; simpl.
    + now rewrite Hb.
    + now rewrite Hb'.
  - intros Hall. simpl. induction Hall as [| b' rest Hb' Hrest IH]; simpl.
    + reflexivity.
    + now rewrite Hb'.
Qed.

Lemma created_button_has_image (width height offset : Z) (b : Button.t) :
  In b (create_buttons width height offset) ->
  Button.name b <> "back"%string /\
  exists image, dict_get (Button.name b) status_backgrounds = Some image.
Proof using dict_iter_perm.
  intros Hb.
  assert (Hname : In (Button.name b) [RED_LABEL; YELLOW_LABEL; GREEN_LABEL]).
  { apply (in_map Button.name) in Hb.
    unfold create_buttons in Hb. rewrite create_buttons_loop_names in Hb.
    apply (Permutation_in _ (Permutation_map fst (dict_iter_perm color_labels))) in Hb.
    exact Hb. }
  simpl in Hname. destruct Hname as [<- | [<- | [<- | []]]];
    (split; [discriminate | eexists; reflexivity]).
Qed.

(** X14. Every button [create_buttons] makes has a background image: a
    touch whose first hit is such a button hides the menu and the title,
    shows the back button and the image of the button's label, and sets the
    animation's colour to the button's fill colour; frequency, timestamps
    and strip of the animation stay as they are. *)
Theorem status_button_selects_status (width height offset : Z)
        (bs pre post : list Button.t) (b : Button.t) (point : Z * Z * Z)
        (app : App) :
  In b (create_buttons width height offset) ->
  bs = pre ++ b :: post ->
  Forall (fun b' => Button_contains b' point = false) pre ->
  Button_contains b point = true ->
  exists image,
    dict_get (Button.name b) status_backgrounds = Some image /\
    let app' := handle_touch bs (Some point) app in
    screen app' = {| back_button_group_hidden := false;
                     button_group_hidden := true;
                     social_status_label_hidden := true;
                     background := BgImage image |} /\
    color (fields (pattern app')) = Button_fill_color b /\
    strip (fields (pattern app')) = strip (fields (pattern app)) /\
    frequency (pattern app') = frequency (pattern app) /\
    _last_update_time (pattern app') = _last_update_time (pattern app).
Proof using dict_iter_perm.
  intros Hb -> Hpre Hhit.
  destruct (created_button_has_image _ _ _ _ Hb) as (Hnb & image & Himg).
  exists image. split; [exact Himg |]. cbv zeta.
  assert (Hh : handle_touch (pre ++ b :: post) (Some point) app = press b app).
  { simpl. induction Hpre as [| b' pre' Hb' Hpre' IH]; simpl.
    - now rewrite Hhit.
    - now rewrite Hb'. }
  apply String.eqb_neq in Hnb.
  rewrite Hh. unfold press. rewrite Himg, Hnb. simpl. repeat split.
Qed.

(** X15. The back button brings the menu back and leaves the lights alone:
    a touch whose first hit is a button named "back" shows menu and title,
    hides the back button, resets the background to the background colour,
    and does not change the animation, whose colour stays the status last
    selected. *)
Theorem back_button_keeps_colour (bs pre post : list Button.t) (b : Button.t)
        (point : Z * Z * Z) (app : App) :
  Button.name b = "back"%string ->
  bs = pre ++ b :: post ->
  Forall (fun b' => Button_contains b' point = false) pre ->
  Button_contains b point = true ->
  handle_touch bs (Some point) app
  = {| screen := initial_screen; pattern := pattern app |}.
Proof.
  intros Hname -> Hpre Hhit.
  assert (Hh : handle_touch (pre ++ b :: post) (Some point) app = press b app).
  { simpl. induction Hpre as [| b' pre' Hb' Hpre' IH]; simpl.
    - now rewrite Hhit.
    - now rewrite Hb'. }
  rewrite Hh. unfold press. rewrite Hname. reflexivity.
Qed.

(** ** The application as a whole *)

Lemma press_keeps_task (b : Button.t) (app : App) :
  frequency (pattern (press b app)) = frequency (pattern app) /\
  _last_update_time (pattern (press b app)) = _last_update_time (pattern app) /\
  strip (fields (pattern (press b app))) = strip (fields (pattern app)).
Proof.
  unfold press.
  destruct (dict_get (Button.name b) status_backgrounds);
    destruct (String.eqb (Button.name b) "back"); simpl; auto.
Qed.

Lemma handle_touch_keeps_task (bs : list Button.t) (t : option (Z * Z * Z))
      (app : App) :
  frequency (pattern (handle_touch bs t app)) = frequency (pattern app) /\
  _last_update_time (pattern (handle_touch bs t app))
    = _last_update_time (pattern app) /\
  strip (fields (pattern (handle_touch bs t app))) = strip (fields (pattern app)).
Proof.
  destruct t as [p |]; simpl; [| auto].
  induction bs as [| b rest IH]; simpl; [auto |].
  destruct (Button_contains b p); [apply press_keeps_task | exact IH].
Qed.

Lemma press_status_colour (b : Button.t) (app : App) :
  In b buttons ->
  status_colour (color (fields (pattern app))) ->
  status_colour (color (fields (pattern (press b app)))).
Proof using dict_iter_perm.
  intros Hb Hc. unfold press.
  destruct (dict_get (Button.name b) status_backgrounds) as [image |] eqn:Himg.
  - simpl. right. exists b. split; [| reflexivity].
    unfold buttons in Hb. apply in_app_or in Hb.
    destruct Hb as [Hb | [<- | []]]; [exact Hb | discriminate Himg].
  - destruct (String.eqb (Button.name b) "back"); exact Hc.
Qed.

Lemma handle_touch_status_colour (t : option (Z * Z * Z)) (app : App) :
  status_colour (color (fields (pattern app))) ->
  status_colour (color (fields (pattern (handle_touch buttons t app)))).
Proof using dict_iter_perm.
  intros Hc. destruct t as [p |]; simpl; [| exact Hc].
  assert (Hsub : forall b, In b buttons -> In b buttons) by auto.
  revert Hsub. generalize buttons at 1 3. intros bs Hsub.
  induction bs as [| b rest IH]; simpl; [exact Hc |].
  destruct (Button_contains b p).
  - apply press_status_colour; [apply Hsub; now left | exact Hc].
  - apply IH. intros b' Hb'. apply Hsub. now right.
Qed.

(** An update of the animation, when the frequency is not zero: either
    nothing happens to the task, or one pass was made. *)
Lemma update_animation_inv (fuel : nat) (self self' : Obj SparkleFields)
      (w w' : World) :
  ~ (frequency self == 0)%Q ->
  @update _ (SparkleAnimation_action fuel) self w = Ok (self', w') ->
  frequency self' = frequency self /\
  color (fields self') = color (fields self) /\
  ((self' = self /\ journal w' = journal w) \/
   (shows (oplog (strip (fields self'))) = S (shows (oplog (strip (fields self)))) /\
    length (journal w') = S (length (journal w)))).
Proof using set_iter_perm.
  intros Hnz Hup. rewrite (update_unfold self w Hnz) in Hup.
  destruct (_ >? _).
  - simpl in Hup.
    destruct (SparkleAnimation_run fuel self (ticked w)) as [[o w1] | e |] eqn:Hrun;
      try discriminate.
    injection Hup as <- <-. simpl.
    destruct (pass_shape _ _ _ _ _ Hrun)
      as (rgb & sets & d & _ & -> & Hf & Hlog & _).
    destruct (SparkleAnimation_run_inv _ _ _ _ _ Hrun) as (_ & painted & _ & Ho & _).
    split; [exact Hf |]. split; [rewrite Ho; reflexivity |]. right.
    rewrite Hlog. simpl. rewrite shows_sets. simpl. auto.
  - injection Hup as <- <-. simpl. auto.
Qed.

(** X16. The application never raises. Started by [boot] on any strip and
    run on the buttons [init] makes, with a button library whose
    [fill_color] reads a colour that normalizes, the loop over any touches
    ends without exception (it returns, or is still sampling when the fuel
    is out); and the animation's colour is always the initial 0 or the fill
    colour of a status button, never that of the back button. *)
Theorem application_never_raises (fuel : nat) (strip0 : NeoPixel)
        (touches : list (option (Z * Z * Z))) (w : World) :
  (forall b, In b (create_buttons 320 40 10) ->
     exists rgb, forall w0, normalize (Button_fill_color b) w0 = Ok (rgb, w0)) ->
  (forall e, (app <- boot strip0 ;; app_loop fuel buttons touches app) w <> Raise e) /\
  (forall app' w',
      (app <- boot strip0 ;; app_loop fuel buttons touches app) w = Ok (app', w') ->
      frequency (pattern app') = 12%Q /\
      status_colour (color (fields (pattern app')))).
Proof using set_iter_perm dict_iter_perm.
  intros Hlib.
  assert (Hnorm : forall c w0, status_colour c -> exists rgb, normalize c w0 = Ok (rgb, w0)).
  { intros c w0 [-> | (b & Hb & ->)].
    - exists BLACK. reflexivity.
    - destruct (Hlib b Hb) as (rgb & Hr). exists rgb. apply Hr. }
  assert (Hloop : forall app w0,
             frequency (pattern app) = 12%Q ->
             status_colour (color (fields (pattern app))) ->
             (forall e, app_loop fuel buttons touches app w0 <> Raise e) /\
             (forall app' w', app_loop fuel buttons touches app w0 = Ok (app', w') ->
                frequency (pattern app') = 12%Q /\
                status_colour (color (fields (pattern app'))))).
  { induction touches as [| t rest IH]; intros app w0 Hf Hc.
    - split; [discriminate |]. intros app' w' Hrun. injection Hrun as <- _. auto.
    - pose proof (handle_touch_keeps_task buttons t app) as (Hf' & _ & _).
      pose proof (handle_touch_status_colour t app Hc) as Hc'.
      set (app1 := handle_touch buttons t app) in *.
      assert (Hnz : ~ (frequency (pattern app1) == 0)%Q).
      { rewrite Hf', Hf. discriminate. }
      cbn [app_loop]. fold app1. unfold bind.
      destruct (update (pattern app1) w0) as [[p w1] | e |] eqn:Hup.
      + destruct (update_animation_inv _ _ _ _ _ Hnz Hup) as (Hfp & Hcp & _).
        apply IH; simpl; [congruence | now rewrite Hcp].
      + exfalso. rewrite (update_unfold _ _ Hnz) in Hup.
        destruct (_ >? _); [| discriminate]. simpl in Hup.
        destruct (SparkleAnimation_run fuel (pattern app1) (ticked w0))
          as [[o w1] | e' |] eqn:Hrun; try discriminate.
        destruct (pass_raise_inv _ _ _ _ Hrun) as (_ & c & Hpc & Hout).
        destruct (Hnorm _ (ticked w0) Hc') as (rgb & Hn).
        rewrite Hpc in Hn. apply normalize_packed_inv in Hn. tauto.
      + split; discriminate. }
  unfold bind, boot, SparkleAnimation_init, PeriodicTask_init, ret.
  cbn [frequency _last_update_time fields color strip _offset].
  split.
  - apply Hloop; simpl; [reflexivity | now left].
  - apply Hloop; simpl; [reflexivity | now left].
Qed.

(** X17. Frames and fires go together: over any turns of the application
    loop with a frequency other than zero, on whatever buttons, the strip is
    shown exactly once per fire of the task, and never by a touch or by an
    update that does not fire. *)
Theorem one_frame_per_fire (fuel : nat) (bs : list Button.t)
        (touches : list (option (Z * Z * Z))) :
  forall (app app' : App) (w w' : World),
    ~ (frequency (pattern app) == 0)%Q ->
    app_loop fuel bs touches app w = Ok (app', w') ->
    (shows (oplog (strip (fields (pattern app')))) + length (journal w)
     = shows (oplog (strip (fields (pattern app)))) + length (journal w'))%nat.
Proof using set_iter_perm.
  induction touches as [| t rest IH]; intros app app' w w' Hnz Hrun.
  - injection Hrun as <- <-. reflexivity.
  - pose proof (handle_touch_keeps_task bs t app) as (Hf' & _ & Hs').
    cbn [app_loop] in Hrun. set (app1 := handle_touch bs t app) in *.
    unfold bind in Hrun.
    destruct (update (pattern app1) w) as [[p w1] | e |] eqn:Hup; try discriminate.
    assert (Hnz1 : ~ (frequency (pattern app1) == 0)%Q) by (now rewrite Hf').
    destruct (update_animation_inv _ _ _ _ _ Hnz1 Hup) as (Hfp & _ & Hcase).
    apply IH in Hrun; [| simpl; now rewrite Hfp]. simpl in Hrun.
    rewrite <- Hs'.
    destruct Hcase as [(-> & Hj) | (Hsh & Hj)]; [rewrite Hj in Hrun |]; lia.
Qed.

End Program.

(** ** The properties at work on the concrete device *)

Lemma insertion_order_perm (s : list Z) : Permutation (insertion_order s) s.
Proof. apply Permutation_refl. Qed.

Lemma stub_ticks_monotone : monotone stub_ticks.
Proof. intros i j Hij. unfold stub_ticks. lia. Qed.




Lemma pass_normalizes_witness :
  exists self' w' rgb,
    SparkleAnimation_run stub_draws insertion_order 32
      (pixel_pattern (PackedColor 16755387)) (world_at 0) = Ok (self', w') /\
    normalize (PackedColor 16755387) (world_at 0) = Ok (rgb, world_at 0) /\
    rgb = [255; 170; 187] /\
    forall i, (i < 24)%nat ->
      ~ In (Z.of_nat i) (written_since_fill (oplog (strip (fields self')))) ->
      nth_error (pixels (strip (fields self'))) i = Some [85; 56; 62].
Proof.
  destruct (SparkleAnimation_run stub_draws insertion_order 32
              (pixel_pattern (PackedColor 16755387)) (world_at 0))
    as [[self' w'] | e |] eqn:Hrun.
  - destruct (pass_normalizes_then_fills stub_draws insertion_order
                insertion_order_perm 32 _ self' (world_at 0) w' Hrun)
      as (rgb & Hn & Hpacked & _ & _ & _ & _ & Hbase).
    destruct (Hpacked 16755387 eq_refl) as (_ & Hrgb & _).
    exists self', w', rgb. split; [reflexivity |]. split; [exact Hn |].
    split; [exact Hrgb |]. rewrite Hrgb in Hbase. exact Hbase.
  - vm_compute in Hrun. discriminate Hrun.
  - vm_compute in Hrun. discriminate Hrun.
Defined.

Lemma black_pass_witness :
  exists self',
    SparkleAnimation_run stub_draws insertion_order 0
      (pixel_pattern (PackedColor 0)) (world_at 0) = Ok (self', drew 1 (world_at 0)) /\
    written_since_fill (oplog (strip (fields self'))) = [] /\
    pixels (strip (fields self')) = repeat BLACK 24.
Proof.
  destruct (black_pass_places_no_sparkle stub_draws insertion_order 0
              (pixel_pattern (PackedColor 0)) (world_at 0) eq_refl)
    as (self' & Hrun & _ & Hnone & Hpx & _).
  exists self'. auto.
Defined.




Lemma pass_shows_once_witness :
  exists self',
    SparkleAnimation_run stub_draws insertion_order 0
      (other_pattern (ComponentColor BLACK)) later_world
      = Ok (self', drew 1 later_world) /\
    shows (oplog (strip (fields self'))) = 2%nat.
Proof.
  destruct (proj2 (pass_draws_first_and_shows_once stub_draws insertion_order
                     insertion_order_perm)
              0%nat (other_pattern (ComponentColor BLACK)) later_world eq_refl)
    as (self' & Hrun & _ & Hshows & _).
  exists self'. split; [exact Hrun | exact Hshows].
Defined.

(** The frame of the end-to-end case: 24 pixels, RED, the stub draws. The
    percentage drawn is 36, so 8 pixels sparkle. *)
Example red_frame :
  exists self' w',
    SparkleAnimation_run stub_draws insertion_order 32
      (pixel_pattern (ComponentColor RED)) (world_at 0) = Ok (self', w') /\
    pixels (strip (fields self')) =
      [ [181; 0; 0]; [85; 0; 0]; [137; 0; 0]; [85; 0; 0]; [94; 0; 0]; [85; 0; 0];
        [51; 0; 0]; [85; 0; 0]; [85; 0; 0]; [85; 0; 0]; [85; 0; 0]; [85; 0; 0];
        [85; 0; 0]; [43; 0; 0]; [85; 0; 0]; [0; 0; 0]; [85; 0; 0]; [188; 0; 0];
        [85; 0; 0]; [145; 0; 0]; [85; 0; 0]; [85; 0; 0]; [85; 0; 0]; [85; 0; 0] ] /\
    drawn w' = 17%nat.
Proof. eexists _, _. vm_compute. repeat split. Qed.

(** ** The further properties on the concrete device *)

Lemma source_order_perm (d : list (string * list Z)) : Permutation (source_order d) d.
Proof. apply Permutation_refl. Qed.

Lemma update_zero_frequency_witness :
  update stub_ticks task0 (world_at 3) = Raise ZeroDivisionError.
Proof.
  apply (update_zero_frequency_raises stub_ticks task0 (world_at 3)).
  reflexivity.
Defined.

Lemma negative_frequency_witness :
  exists self' w',
    main_loop stub_ticks [id; id; id] task_backwards (world_at 0) = Ok (self', w') /\
    length (journal w') = 3%nat.
Proof.
  destruct (main_loop stub_ticks [id; id; id] task_backwards (world_at 0))
    as [[self' w'] | e |] eqn:Hrun.
  - exists self', w'. split; [reflexivity |].
    apply (negative_frequency_fires_every_turn stub_ticks [id; id; id]
             stub_ticks_monotone task_backwards self' (world_at 0) w');
      [reflexivity | intros H; discriminate H | intros H; discriminate H | exact Hrun].
  - vm_compute in Hrun. discriminate Hrun.
  - vm_compute in Hrun. discriminate Hrun.
Defined.


Lemma short_strip_witness :
  exists self',
    SparkleAnimation_run stub_draws insertion_order 0
      (one_pixel (ComponentColor RED)) (world_at 0) = Ok (self', drew 1 (world_at 0)) /\
    pixels (strip (fields self')) = [[85; 0; 0]].
Proof.
  destruct (short_strip_never_sparkles stub_draws insertion_order
              insertion_order_perm 0 (one_pixel (ComponentColor RED))
              (world_at 0) RED (le_n 1) eq_refl)
    as (self' & Hrun & _ & Hpx).
  exists self'. split; [exact Hrun | exact Hpx].
Defined.

Lemma sparkle_count_witness :
  exists self' w',
    SparkleAnimation_run stub_draws insertion_order 32
      (pixel_pattern (ComponentColor RED)) (world_at 0) = Ok (self', w') /\
    6 <= Z.of_nat (length (written_since_fill (oplog (strip (fields self'))))) <= 18.
Proof.
  destruct (SparkleAnimation_run stub_draws insertion_order 32
              (pixel_pattern (ComponentColor RED)) (world_at 0))
    as [[self' w'] | e |] eqn:Hrun.
  - exists self', w'. split; [reflexivity |].
    exact (proj1 (sparkle_count_between_quarters stub_draws insertion_order
                    insertion_order_perm 32 (pixel_pattern (ComponentColor RED))
                    self' (world_at 0) w' RED Hrun eq_refl eq_refl)).
  - vm_compute in Hrun. discriminate Hrun.
  - vm_compute in Hrun. discriminate Hrun.
Defined.

Lemma two_draws_witness :
  exists self' w',
    SparkleAnimation_run stub_draws insertion_order 32
      (pixel_pattern (ComponentColor RED)) (world_at 0) = Ok (self', w') /\
    (0 + 1 + 2 * length (written_since_fill (oplog (strip (fields self'))))
     <= drawn w')%nat.
Proof.
  destruct (SparkleAnimation_run stub_draws insertion_order 32
              (pixel_pattern (ComponentColor RED)) (world_at 0))
    as [[self' w'] | e |] eqn:Hrun.
  - exists self', w'. split; [reflexivity |].
    exact (proj1 (pass_consumes_two_draws_per_sparkle stub_draws insertion_order
                    insertion_order_perm 32 (pixel_pattern (ComponentColor RED))
                    self' (world_at 0) w' RED Hrun eq_refl eq_refl)).
  - vm_compute in Hrun. discriminate Hrun.
  - vm_compute in Hrun. discriminate Hrun.
Defined.

Lemma frame_within_witness :
  exists self' w',
    SparkleAnimation_run stub_draws insertion_order 32
      (pixel_pattern (ComponentColor YELLOW)) (world_at 0) = Ok (self', w') /\
    Forall (Forall (fun c => 0 <= c <= 229)) (pixels (strip (fields self'))).
Proof.
  destruct (SparkleAnimation_run stub_draws insertion_order 32
              (pixel_pattern (ComponentColor YELLOW)) (world_at 0))
    as [[self' w'] | e |] eqn:Hrun.
  - exists self', w'. split; [reflexivity |].
    apply (proj2 (frame_within_colour stub_draws insertion_order
                    insertion_order_perm 32 (pixel_pattern (ComponentColor YELLOW))
                    self' (world_at 0) w' YELLOW Hrun eq_refl
                    ltac:(repeat constructor; discriminate))).
    repeat constructor; discriminate.
  - vm_compute in Hrun. discriminate Hrun.
  - vm_compute in Hrun. discriminate Hrun.
Defined.

Lemma packed_and_tuple_witness :
  exists self1' self2' w1' w2',
    SparkleAnimation_run stub_draws insertion_order 32
      (pixel_pattern (PackedColor 16755200)) (world_at 0) = Ok (self1', w1') /\
    SparkleAnimation_run stub_draws insertion_order 40
      (other_pattern (ComponentColor YELLOW)) later_world = Ok (self2', w2') /\
    pixels (strip (fields self1')) = pixels (strip (fields self2')).
Proof.
  destruct (SparkleAnimation_run stub_draws insertion_order 32
              (pixel_pattern (PackedColor 16755200)) (world_at 0))
    as [[self1' w1'] | e |] eqn:H1;
    [| vm_compute in H1; discriminate H1 | vm_compute in H1; discriminate H1].
  destruct (SparkleAnimation_run stub_draws insertion_order 40
              (other_pattern (ComponentColor YELLOW)) later_world)
    as [[self2' w2'] | e |] eqn:H2;
    [| vm_compute in H2; discriminate H2 | vm_compute in H2; discriminate H2].
  exists self1', self2', w1', w2'. split; [reflexivity |]. split; [reflexivity |].
  refine (proj1 (proj2 (packed_and_tuple_render_alike stub_draws insertion_order
            insertion_order_perm 32 40 255 170 0
            (pixel_pattern (PackedColor 16755200))
            (other_pattern (ComponentColor YELLOW)) self1' self2'
            (world_at 0) later_world w1' w2' _ _ _ eq_refl eq_refl eq_refl eq_refl
            H1 H2))); lia.
Defined.

Lemma pass_only_touches_strip_witness :
  exists self' w',
    SparkleAnimation_run stub_draws insertion_order 100
      (other_pattern (ComponentColor GREEN)) later_world = Ok (self', w') /\
    _offset (fields self') = 5 /\ color (fields self') = ComponentColor GREEN /\
    length (pixels (strip (fields self'))) = 24%nat /\ journal w' = [(3, 4)].
Proof.
  destruct (SparkleAnimation_run stub_draws insertion_order 100
              (other_pattern (ComponentColor GREEN)) later_world)
    as [[self' w'] | e |] eqn:Hrun.
  - exists self', w'. split; [reflexivity |].
    destruct (pass_only_touches_strip stub_draws insertion_order
                insertion_order_perm 100 _ self' later_world w' Hrun)
      as (_ & _ & Ho & Hc & _ & Hj & Hl & _).
    auto.
  - vm_compute in Hrun. discriminate Hrun.
  - vm_compute in Hrun. discriminate Hrun.
Defined.

Lemma create_buttons_layout_witness :
  nth_error (create_buttons source_order 320 40 10) 1 =
    Some {| Button.x := 10; Button.y := 110;
            Button.width := 320; Button.height := 40;
            Button.style := SHADOWROUNDRECT;
            Button.fill_color := ComponentColor YELLOW;
            Button.outline_color := 2236962;
            Button.name := YELLOW_LABEL; Button.label := YELLOW_LABEL;
            Button.label_font := arial_font;
            Button.label_color := 16777215 |}.
Proof.
  exact (proj2 (proj2 (create_buttons_layout source_order source_order_perm
                         320 40 10)) 1%nat YELLOW_LABEL YELLOW eq_refl).
Defined.

Lemma screen_consistent_witness :
  exists app' w',
    app_loop stub_ticks stub_draws insertion_order inside as_given 32
      (buttons source_order) [Some (50, 120, 900); None; Some (20, 210, 900)]
      (menu (PackedColor 0)) (world_at 0) = Ok (app', w') /\
    screen_consistent (screen app').
Proof.
  destruct (app_loop stub_ticks stub_draws insertion_order inside as_given 32
              (buttons source_order) [Some (50, 120, 900); None; Some (20, 210, 900)]
              (menu (PackedColor 0)) (world_at 0))
    as [[app' w'] | e |] eqn:Hrun.
  - exists app', w'. split; [reflexivity |].
    destruct (screen_stays_consistent stub_ticks stub_draws insertion_order
                inside as_given 32 (buttons source_order)
                [Some (50, 120, 900); None; Some (20, 210, 900)]) as [Hinit Hkeep].
    exact (Hkeep (menu (PackedColor 0)) app' (world_at 0) w' Hinit Hrun).
  - vm_compute in Hrun. discriminate Hrun.
  - vm_compute in Hrun. discriminate Hrun.
Defined.

Lemma first_hit_witness :
  handle_touch inside as_given (buttons source_order) (Some (50, 110, 900))
    (menu (PackedColor 0))
  = press as_given
      {| Button.x := 10; Button.y := 70; Button.width := 320; Button.height := 40;
         Button.style := SHADOWROUNDRECT;
         Button.fill_color := ComponentColor RED;
         Button.outline_color := 2236962;
         Button.name := RED_LABEL; Button.label := RED_LABEL;
         Button.label_font := arial_font; Button.label_color := 16777215 |}
      (menu (PackedColor 0)).
Proof.
  apply (proj1 (first_hit_button_handles_touch inside as_given
                  (buttons source_order) (50, 110, 900) (menu (PackedColor 0)))
           [] _ (skipn 1 (buttons source_order)));
    [reflexivity | constructor | reflexivity].
Defined.

Lemma status_button_witness :
  color (fields (pattern
    (handle_touch inside as_given (buttons source_order) (Some (50, 120, 900))
       (menu (PackedColor 0)))))
  = ComponentColor YELLOW.
Proof.
  destruct (status_button_selects_status source_order inside as_given
              source_order_perm 320 40 10 (buttons source_order)
              (firstn 1 (buttons source_order))
              (skipn 2 (buttons source_order))
              {| Button.x := 10; Button.y := 110;
                 Button.width := 320; Button.height := 40;
                 Button.style := SHADOWROUNDRECT;
                 Button.fill_color := ComponentColor YELLOW;
                 Button.outline_color := 2236962;
                 Button.name := YELLOW_LABEL; Button.label := YELLOW_LABEL;
                 Button.label_font := arial_font;
                 Button.label_color := 16777215 |}
              (50, 120, 900) (menu (PackedColor 0)))
    as (image & _ & _ & Hcolour & _).
  - right. left. reflexivity.
  - reflexivity.
  - repeat constructor.
  - reflexivity.
  - exact Hcolour.
Defined.

Lemma back_button_witness :
  handle_touch inside as_given (buttons source_order) (Some (20, 210, 900))
    {| screen := {| back_button_group_hidden := false;
                    button_group_hidden := true;
                    social_status_label_hidden := true;
                    background := BgImage "images/low.bmp" |};
       pattern := pixel_pattern (ComponentColor YELLOW) |}
  = menu (ComponentColor YELLOW).
Proof.
  apply (back_button_keeps_colour inside as_given (buttons source_order)
           (firstn 3 (buttons source_order)) [] back_button (20, 210, 900));
    [reflexivity | reflexivity | repeat constructor | reflexivity].
Defined.

Lemma as_given_normalizes (b : Button.t) :
  In b (create_buttons source_order 320 40 10) ->
  exists rgb, forall w0, normalize (as_given b) w0 = Ok (rgb, w0).
Proof.
  intros Hb. vm_compute in Hb.
  destruct Hb as [<- | [<- | [<- | []]]]; eexists; intros w0; reflexivity.
Qed.

Lemma application_never_raises_witness :
  exists app' w',
    (app <- boot dark_strip ;;
     app_loop stub_ticks stub_draws insertion_order inside as_given 32
       (buttons source_order)
       [None; None; Some (50, 120, 900); None; None; Some (20, 210, 900); None]
       app) (world_at 0) = Ok (app', w') /\
    frequency (pattern app') = 12%Q /\
    status_colour source_order as_given (color (fields (pattern app'))).
Proof.
  destruct (application_never_raises stub_ticks stub_draws insertion_order
              source_order inside as_given source_order_perm
              insertion_order_perm 32 dark_strip
              [None; None; Some (50, 120, 900); None; None;
               Some (20, 210, 900); None]
              (world_at 0) as_given_normalizes) as [Hnever Hcolour].
  destruct ((app <- boot dark_strip ;;
             app_loop stub_ticks stub_draws insertion_order inside as_given 32
               (buttons source_order)
               [None; None; Some (50, 120, 900); None; None;
                Some (20, 210, 900); None]
               app) (world_at 0))
    as [[app' w'] | e |] eqn:Hrun.
  - exists app', w'. split; [reflexivity |]. exact (Hcolour app' w' eq_refl).
  - exfalso. exact (Hnever e eq_refl).
  - vm_compute in Hrun. discriminate Hrun.
Defined.

Lemma one_frame_per_fire_witness :
  exists app' w',
    app_loop stub_ticks stub_draws insertion_order inside as_given 32
      (buttons source_order) [None; None; Some (50, 120, 900); None; None; None]
      (menu (PackedColor 0)) (world_at 0) = Ok (app', w') /\
    shows (oplog (strip (fields (pattern app')))) = length (journal w').
Proof.
  destruct (app_loop stub_ticks stub_draws insertion_order inside as_given 32
              (buttons source_order) [None; None; Some (50, 120, 900); None; None; None]
              (menu (PackedColor 0)) (world_at 0))
    as [[app' w'] | e |] eqn:Hrun.
  - exists app', w'. split; [reflexivity |].
    pose proof (one_frame_per_fire stub_ticks stub_draws insertion_order inside
                  as_given insertion_order_perm 32 (buttons source_order)
                  [None; None; Some (50, 120, 900); None; None; None]
                  (menu (PackedColor 0)) app' (world_at 0) w'
                  ltac:(intros H; discriminate H) Hrun) as Heq.
    simpl in Heq. rewrite Nat.add_0_r in Heq. exact Heq.
  - vm_compute in Hrun. discriminate Hrun.
  - vm_compute in Hrun. discriminate Hrun.
Defined.
